(** * Image post-processing of the WhatsApp report automation

    A shallow embedding of the two image routines of the repository and of
    the Pillow operations they call:

    - [Whatsapp.optimize_image] and [Whatsapp.crop_white_space]
      from [VD_Hourly_Whatsapp.py];
    - [Report.trim_white_space] from [vd_pdf_report.py].

    Pillow is an external library.  Its pixel-level operations that the
    trimming code relies on ([Image.new], [getpixel], [ImageChops.difference],
    [ImageChops.add], [ImageEnhance.Contrast], [getbbox], [crop]) are modelled
    in [Module PIL] for images of mode RGB, following the C kernels of the
    library.  The JPEG encoder, the mode conversion and the LANCZOS resampler
    are kept abstract: the encoder section is parametric in them.  In
    [Module Whatsapp] the encoder returns a buffer for every image; [Module
    Fallible] has [optimize_image] over an encoder that can raise, as
    [img.save] does on an image without pixels or too large for a JPEG
    file. *)

From Stdlib Require Import ZArith.
From Stdlib.Strings Require Import Byte.
From stdpp Require Import base decidable option numbers list sets strings
  gmap pretty.

Local Open Scope Z_scope.

(** ** Exceptions and the error monad *)

Inductive exn : Type :=
  | IndexError          (* image index out of range *)
  | ValueError          (* bad box, bad target size, image without pixels *)
  | ZeroDivisionError   (* statistics of an image without pixels *)
  | UnboundLocalError   (* a local read before any assignment *)
  | OSError.            (* an image the JPEG encoder cannot write *)

Inductive result (A : Type) : Type :=
  | Ok (a : A)
  | Raise (e : exn).
Arguments Ok {A} a.
Arguments Raise {A} e.

#[global] Instance result_ret : MRet result := fun A a => Ok a.

#[global] Instance result_bind : MBind result := fun A B k r =>
  match r with
  | Ok a => k a
  | Raise e => Raise e
  end.

(** ** Pillow, for RGB images *)

Module PIL.

(** A pixel of an RGB image: three channels, each a byte held in [Z]. *)
Definition pixel : Type := Z * Z * Z.

Definition chan_ok (c : Z) : Prop := 0 <= c <= 255.

Definition pixel_ok (p : pixel) : Prop :=
  let '(r, g, b) := p in chan_ok r /\ chan_ok g /\ chan_ok b.

Record Image : Type := mkImage {
  mode : string;
  width : Z;
  height : Z;
  rows : list (list pixel)   (* [height] rows of [width] pixels, top first *)
}.

Definition img_size (img : Image) : Z * Z := (width img, height img).

(** The representation invariant of a decoded RGB bitmap. *)
Definition rgb_image (img : Image) : Prop :=
  mode img = "RGB" /\
  0 <= width img /\ 0 <= height img /\
  Z.of_nat (length (rows img)) = height img /\
  Forall (fun row => Z.of_nat (length row) = width img /\ Forall pixel_ok row)
         (rows img).

#[global] Instance chan_ok_dec c : Decision (chan_ok c).
Proof. unfold chan_ok. apply _. Defined.

#[global] Instance pixel_ok_dec p : Decision (pixel_ok p).
Proof. destruct p as [[r g] b]. simpl. apply _. Defined.

#[global] Instance rgb_image_dec img : Decision (rgb_image img).
Proof. unfold rgb_image. apply _. Defined.

(** The pixel stored at column [x] of row [y], when there is one. *)
Definition pixel_at (img : Image) (x y : Z) : option pixel :=
  if decide (0 <= x /\ 0 <= y)
  then row ← rows img !! Z.to_nat y; row !! Z.to_nat x
  else None.

(** [Image.new(mode, size, color)]: a uniform image. *)
Definition Image_new (m : string) (sz : Z * Z) (color : pixel) : Image :=
  let '(w, h) := sz in
  mkImage m w h (replicate (Z.to_nat h) (replicate (Z.to_nat w) color)).

(** [img.getpixel((x, y))]: a negative coordinate counts from the far edge;
    outside the bitmap the call raises. *)
Definition getpixel (img : Image) (xy : Z * Z) : result pixel :=
  let '(x, y) := xy in
  let x := if decide (x < 0) then width img + x else x in
  let y := if decide (y < 0) then height img + y else y in
  match pixel_at img x y with
  | Some p => Ok p
  | None => Raise IndexError
  end.

(** Saturation of a channel value, as the [CHOP] kernels do it. *)
Definition clip8 (v : Z) : Z :=
  if decide (v <= 0) then 0 else if decide (255 <= v) then 255 else v.

Definition map_chan (f : Z -> Z) (p : pixel) : pixel :=
  let '(r, g, b) := p in (f r, f g, f b).

Definition zip_chan (f : Z -> Z -> Z) (p q : pixel) : pixel :=
  let '(r1, g1, b1) := p in
  let '(r2, g2, b2) := q in (f r1 r2, f g1 g2, f b1 b2).

(** A binary channel operation, pixel by pixel over the common extent. *)
Definition chop (f : Z -> Z -> Z) (a b : Image) : Image :=
  mkImage (mode a) (Z.min (width a) (width b)) (Z.min (height a) (height b))
          (zip_with (zip_with (zip_chan f)) (rows a) (rows b)).

(** [ImageChops.difference(a, b)]: [abs(a - b)] on every channel. *)
Definition difference (a b : Image) : Image :=
  chop (fun u v => Z.abs (u - v)) a b.

(** [ImageChops.add(a, b, scale, offset)]: [(a + b) / scale + offset],
    converted to an integer by truncation and saturated.  [scale] is a
    positive integer here, for which the quotient below is the truncation of
    the exact value of that expression. *)
Definition add_chan (scale offset : Z) (u v : Z) : Z :=
  clip8 (Z.quot (u + v + offset * scale) scale).

Definition add (a b : Image) (scale offset : Z) : Image :=
  chop (add_chan scale offset) a b.

(** Conversion of one RGB pixel to luminance (mode L). *)
Definition rgb2l (p : pixel) : Z :=
  let '(r, g, b) := p in
  Z.shiftr (r * 19595 + g * 38470 + b * 7471 + 32768) 16.

(** [int(ImageStat.Stat(image.convert("L")).mean[0] + 0.5)]: the rounded mean
    luminance, written with exact integer arithmetic. *)
Definition mean_luminance (img : Image) : result Z :=
  let ls := rgb2l <$> concat (rows img) in
  let count := Z.of_nat (length ls) in
  if decide (count = 0) then Raise ZeroDivisionError
  else Ok ((2 * foldr Z.add 0 ls + count) / (2 * count)).

(** [Image.blend(im1, im2, alpha)] for an integral [alpha]: the two end
    points are copies, everything else is extrapolated and saturated. *)
Definition blend_chan (alpha : Z) (u v : Z) : Z :=
  clip8 (u + alpha * (v - u)).

Definition blend (im1 im2 : Image) (alpha : Z) : Image :=
  if decide (alpha = 0) then im1
  else if decide (alpha = 1) then im2
  else chop (blend_chan alpha) im1 im2.

(** [ImageEnhance.Contrast(image).enhance(factor)]: blend away from the
    uniform grey image of the mean luminance. *)
Definition Contrast_enhance (image : Image) (factor : Z) : result Image :=
  mean ← mean_luminance image;
  let degenerate := Image_new (mode image) (img_size image) (mean, mean, mean) in
  Ok (blend degenerate image factor).

(** A pixel with some non-zero channel. *)
Definition nonzero (p : pixel) : bool :=
  let '(r, g, b) := p in
  negb (bool_decide (r = 0) && bool_decide (g = 0) && bool_decide (b = 0)).

Definition bbox : Type := Z * Z * Z * Z.

(** One row of the bounding-box scan: [has_data], [bbox[0]] and [bbox[2]]
    are updated at every non-zero pixel. *)
Fixpoint scan_row (x : Z) (row : list pixel) (st : bool * Z * Z) : bool * Z * Z :=
  match row with
  | [] => st
  | p :: row' =>
      let '(has_data, x0, x1) := st in
      let st' :=
        if nonzero p
        then (true, (if decide (x < x0) then x else x0),
                    (if decide (x1 <= x) then x + 1 else x1))
        else st in
      scan_row (x + 1) row' st'
  end.

Fixpoint scan_rows (y : Z) (rs : list (list pixel)) (bb : bbox) : bbox :=
  match rs with
  | [] => bb
  | row :: rs' =>
      let '(x0, y0, x1, y1) := bb in
      let '(has_data, x0', x1') := scan_row 0 row (false, x0, x1) in
      let bb' :=
        if has_data
        then (x0', (if decide (y0 < 0) then y else y0), x1', y + 1)
        else (x0', y0, x1', y1) in
      scan_rows (y + 1) rs' bb'
  end.

(** [img.getbbox()]: the box of the non-zero pixels, [None] without any. *)
Definition getbbox (img : Image) : option bbox :=
  let '(x0, y0, x1, y1) := scan_rows 0 (rows img) (width img, -1, 0, 0) in
  if decide (y0 < 0) then None else Some (x0, y0, x1, y1).

Definition black : pixel := (0, 0, 0).

(** [img.crop(box)]: the region left/top inclusive, right/bottom exclusive;
    what lies outside the source is black; an inverted box raises. *)
Definition crop (img : Image) (box : bbox) : result Image :=
  let '(x0, y0, x1, y1) := box in
  if decide (x1 < x0) then Raise ValueError
  else if decide (y1 < y0) then Raise ValueError
  else
    let w := x1 - x0 in
    let h := y1 - y0 in
    Ok (mkImage (mode img) w h
          ((fun y => (fun x => default black (pixel_at img x y))
                       <$> seqZ x0 w) <$> seqZ y0 h)).

End PIL.

(** ** VD_Hourly_Whatsapp.py *)

Module Whatsapp.
Import PIL.

Definition TARGET_SIZE_BYTES : Z := 4 * 1024 * 1024.
Definition JPEG_QUALITIES : list Z := [95; 85; 75; 65; 55].

Definition bytes : Type := list byte.

(** [len(data)] *)
Definition len (data : bytes) : Z := Z.of_nat (length data).

(** [int(w * 0.96)].  The double product truncates to the same integer as the
    exact rational [96 w / 100] for every dimension a bitmap can have. *)
Definition int_mul_096 (w : Z) : Z := Z.quot (w * 96) 100.

(** One call of the JPEG encoder, as the log of a run records it. *)
Inductive attempt : Type :=
  | Encode (img : Image) (quality : Z).

(** Computations that call the encoder: the calls made so far are threaded
    through, and a computation ends with a value or an exception. *)
Definition Enc (A : Type) : Type := list attempt -> list attempt * result A.

#[global] Instance Enc_ret : MRet Enc := fun A a log => (log, Ok a).

#[global] Instance Enc_bind : MBind Enc := fun A B k m log =>
  match m log with
  | (log', Ok a) => k a log'
  | (log', Raise e) => (log', Raise e)
  end.

Definition lift {A} (r : result A) : Enc A := fun log => (log, r).

Definition run {A} (m : Enc A) : list attempt * result A := m [].

(** How a loop body ends: with the function's [return], or by going on to
    the statements after the loop with the locals it leaves. *)
Inductive flow (R L : Type) : Type :=
  | Return (r : R)
  | Fallthrough (l : L).
Arguments Return {R L} r.
Arguments Fallthrough {R L} l.

Section Encoder.

(** [img.save(buf, format="JPEG", quality=q, optimize=True,
    progressive=True)] followed by [buf.getvalue()], for an encoder that
    returns a buffer; [Fallible] has the one that can raise. *)
Variable save_jpeg : Image -> Z -> bytes.
(** [img.convert("RGB")] *)
Variable convert_rgb : Image -> Image.
(** The LANCZOS resampling of an image to a valid, different size. *)
Variable lanczos : Image -> Z -> Z -> Image.

(** [img.resize((w, h), Image.LANCZOS)]: a copy when the size is already
    the requested one, an error for a target without pixels. *)
Definition resize (img : Image) (sz : Z * Z) : result Image :=
  let '(w, h) := sz in
  if decide (img_size img = (w, h)) then Ok img
  else if decide (w < 1 \/ h < 1) then Raise ValueError
  else Ok (lanczos img w h).

Definition jpg_bytes (img : Image) (quality : Z) : Enc bytes :=
  fun log => (log ++ [Encode img quality], Ok (save_jpeg img quality)).

(** [for q in JPEG_QUALITIES: ...].  [data] is the local of that name,
    [None] while it is unbound.  The [logger.info] line of the body has no
    part in the result and is left out. *)
Fixpoint ladder (budget : Z) (img : Image) (qs : list Z) (data : option bytes)
  : Enc (flow bytes (option bytes)) :=
  match qs with
  | [] => mret (Fallthrough data)
  | q :: qs' =>
      data ← jpg_bytes img q;
      if decide (len data <= budget) then mret (Return data)
      else ladder budget img qs' (Some data)
  end.

(** [for _ in range(n): ...] of the downscale loop, with its locals
    [w], [h], [img] and [data]. *)
Fixpoint downscale (budget : Z) (n : nat) (w h : Z) (img : Image)
    (data : option bytes) : Enc (flow bytes (option bytes)) :=
  match n with
  | O => mret (Fallthrough data)
  | S n' =>
      let w := int_mul_096 w in
      let h := int_mul_096 h in
      img ← lift (resize img (w, h));
      data ← jpg_bytes img 65;
      if decide (len data <= budget) then mret (Return data)
      else downscale budget n' w h img (Some data)
  end.

(** [optimize_image], with the module constant [TARGET_SIZE_BYTES] as the
    parameter [budget]. *)
Definition optimize_image_with (budget : Z) (img : Image) : Enc bytes :=
  let img := if decide (mode img ≠ "RGB") then convert_rgb img else img in
  r ← ladder budget img JPEG_QUALITIES None;
  match r with
  | Return data => mret data
  | Fallthrough data =>
      let '(w, h) := img_size img in
      r ← downscale budget 3 w h img data;
      match r with
      | Return data => mret data
      | Fallthrough (Some data) => mret data
      | Fallthrough None => lift (Raise UnboundLocalError)
      end
  end.

Definition optimize_image (img : Image) : Enc bytes :=
  optimize_image_with TARGET_SIZE_BYTES img.

End Encoder.

(** [crop_white_space] *)
Definition crop_white_space (img : Image) : result Image :=
  p ← getpixel img (0, 0);
  let bg := Image_new (mode img) (img_size img) p in
  let diff := difference img bg in
  diff ← Contrast_enhance diff 3;
  let bbox := getbbox diff in
  match bbox with
  | Some box => crop img box
  | None => Ok img
  end.

End Whatsapp.

(** ** vd_pdf_report.py *)

Module Report.
Import PIL.

Definition trim_white_space (pil_img : Image) : result Image :=
  let bg := Image_new (mode pil_img) (img_size pil_img) (255, 255, 255) in
  let diff := difference pil_img bg in
  let diff := add diff diff 2 (-100) in
  let bbox := getbbox diff in
  match bbox with
  | Some (bbox0, bbox1, bbox2, bbox3) =>
      let padding := 15 in
      let b_x0 := Z.max 0 (bbox0 - padding) in
      let b_y0 := Z.max 0 (bbox1 - padding) in
      let b_x1 := Z.min (width pil_img) (bbox2 + padding) in
      let b_y1 := Z.min (height pil_img) (bbox3 + padding) in
      crop pil_img (b_x0, b_y0, b_x1, b_y1)
  | None => Ok pil_img
  end.

End Report.

(** ** Reference descriptions of the encoder's search

    The closed forms the loops of [optimize_image] are compared with. *)

Module EncoderSpec.
Import PIL Whatsapp.

Section Rounds.

Variable save_jpeg : Image -> Z -> bytes.
Variable convert_rgb : Image -> Image.
Variable lanczos : Image -> Z -> Z -> Image.

(** The 3-channel image the search works on. *)
Definition normalized (img : Image) : Image :=
  if decide (mode img ≠ "RGB") then convert_rgb img else img.

(** Quality [q] does not fit the budget. *)
Definition over (budget : Z) (img : Image) (q : Z) : Prop :=
  budget < len (save_jpeg img q).

(** A dimension after [k] rounds: scaled by 0.96 and truncated, [k] times. *)
Definition shrunk (k : nat) (w : Z) : Z := Nat.iter k int_mul_096 w.

(** The image of downscale round [k], round 0 being the input. *)
Fixpoint round_image (img : Image) (k : nat) : result Image :=
  match k with
  | O => Ok img
  | S k' =>
      prev ← round_image img k';
      resize lanczos prev (shrunk k (width img), shrunk k (height img))
  end.

(** The encoder calls of downscale rounds [from], ..., [from + n - 1]. *)
Definition round_attempts (img : Image) (from n : nat) : list attempt :=
  flat_map (fun j => match round_image img j with
                     | Ok im => [Encode im 65]
                     | Raise _ => []
                     end) (seq from n).

(** The buffer [data] is what the latest encoder call of [log] returned. *)
Definition latest (log : list attempt) (data : bytes) : Prop :=
  exists im q, last log = Some (Encode im q) /\ data = save_jpeg im q.

End Rounds.

End EncoderSpec.

(** ** A toy encoder, to run the search on concrete inputs *)

Module Toy.
Import PIL Whatsapp.

(** One byte per pixel and per quality point. *)
Definition save_jpeg (img : Image) (q : Z) : bytes :=
  replicate (Z.to_nat (width img * height img * q)) x00.

Definition convert_rgb (img : Image) : Image :=
  mkImage "RGB" (width img) (height img) (rows img).

Definition lanczos (img : Image) (w h : Z) : Image :=
  mkImage (mode img) w h
    (replicate (Z.to_nat h) (replicate (Z.to_nat w) black)).

Definition blank (w h : Z) : Image := Image_new "RGB" (w, h) (255, 255, 255).

End Toy.

(** ** Reference descriptions for the trimming routines *)

Module TrimSpec.
Import PIL.

(** Row [j] of [rs] has a non-zero pixel at index [i]. *)
Definition nonzero_in (rs : list (list pixel)) (i j : nat) : Prop :=
  exists row p, rs !! j = Some row /\ row !! i = Some p /\ nonzero p = true.

(** There is a non-zero pixel at column [x] of row [y]. *)
Definition nonzero_at (img : Image) (x y : Z) : Prop :=
  exists p, pixel_at img x y = Some p /\ nonzero p = true.

(** [box] is the smallest box around the non-zero pixels of [img]: they all
    lie inside, and each of its four sides touches one. *)
Definition tight_bbox (img : Image) (box : bbox) : Prop :=
  let '(x0, y0, x1, y1) := box in
  (forall x y, nonzero_at img x y -> x0 <= x < x1 /\ y0 <= y < y1) /\
  (exists y, nonzero_at img x0 y) /\
  (exists y, nonzero_at img (x1 - 1) y) /\
  (exists x, nonzero_at img x y0) /\
  (exists x, nonzero_at img x (y1 - 1)).

(** Every pixel of [img] has the colour [c]. *)
Definition uniform (img : Image) (c : pixel) : Prop :=
  forall x y p, pixel_at img x y = Some p -> p = c.

(** [(x, y)] lies in [box]. *)
Definition inside (box : bbox) (x y : Z) : Prop :=
  let '(x0, y0, x1, y1) := box in x0 <= x < x1 /\ y0 <= y < y1.

#[global] Instance inside_dec box x y : Decision (inside box x y).
Proof. destruct box as [[[x0 y0] x1] y1]. simpl. apply _. Defined.

(** [box] is a non-empty box within the bounds of [img]. *)
Definition box_within (img : Image) (box : bbox) : Prop :=
  let '(x0, y0, x1, y1) := box in
  0 <= x0 < x1 /\ x1 <= width img /\ 0 <= y0 < y1 /\ y1 <= height img.

(** [out] is the part of [img] that lies in [box]. *)
Definition region_of (img : Image) (box : bbox) (out : Image) : Prop :=
  let '(x0, y0, x1, y1) := box in
  mode out = mode img /\
  width out = x1 - x0 /\ height out = y1 - y0 /\
  forall i j, 0 <= i < x1 - x0 -> 0 <= j < y1 - y0 ->
    pixel_at out i j = pixel_at img (x0 + i) (y0 + j).

(** *** [crop_white_space] *)

(** The uniform image of the colour found at (0, 0). *)
Definition background (img : Image) : result Image :=
  p ← getpixel img (0, 0);
  Ok (Image_new (mode img) (img_size img) p).

(** The image [getbbox] is called on by [crop_white_space]. *)
Definition enhanced_difference (img : Image) : result Image :=
  bg ← background img;
  Contrast_enhance (difference img bg) 3.

(** What [crop_white_space] would be if the box were taken from the
    difference itself, without the contrast step. *)
Definition crop_by_plain_difference (img : Image) : result Image :=
  bg ← background img;
  match getbbox (difference img bg) with
  | Some box => crop img box
  | None => Ok img
  end.

(** *** [trim_white_space] *)

Definition white : pixel := (255, 255, 255).

(** The image [getbbox] is called on by [trim_white_space]: the difference
    from the white image, added to itself with scale 2.0 and offset -100. *)
Definition amplified (pil_img : Image) : Image :=
  let bg := Image_new (mode pil_img) (img_size pil_img) white in
  let diff := difference pil_img bg in
  add diff diff 2 (-100).

(** The distance of a channel from white. *)
Definition from_white (c : Z) : Z := Z.abs (c - 255).

(** A pixel with a channel more than 100 away from white. *)
Definition dark (p : pixel) : bool :=
  let '(r, g, b) := p in
  bool_decide (100 < from_white r) || bool_decide (100 < from_white g)
  || bool_decide (100 < from_white b).

(** There is a dark pixel at column [x] of row [y]. *)
Definition dark_at (img : Image) (x y : Z) : Prop :=
  exists p, pixel_at img x y = Some p /\ dark p = true.

(** [box] is the smallest box around the dark pixels of [img]: they all lie
    inside, and each of its four sides touches one. *)
Definition dark_box (img : Image) (box : bbox) : Prop :=
  let '(x0, y0, x1, y1) := box in
  (forall x y, dark_at img x y -> x0 <= x < x1 /\ y0 <= y < y1) /\
  (exists y, dark_at img x0 y) /\
  (exists y, dark_at img (x1 - 1) y) /\
  (exists x, dark_at img x y0) /\
  (exists x, dark_at img x (y1 - 1)).

(** The image with every pixel that is not dark replaced by white. *)
Definition whitened (img : Image) : Image :=
  mkImage (mode img) (width img) (height img)
    ((fun row : list pixel =>
        (fun p => if dark p then p else white) <$> row) <$> rows img).

(** What the amplification would be with a gain of 3. *)
Definition gain3_chan (d : Z) : Z := clip8 (3 * d - 100).

(** [img] is white except for the box [block], filled with the colour [c]. *)
Definition block_image (img : Image) (block : bbox) (c : pixel) : Prop :=
  forall x y p, pixel_at img x y = Some p ->
    p = if decide (inside block x y) then c else white.

End TrimSpec.

(** ** Sample images *)

Module Samples.
Import PIL.

(** Black at (0, 0), then a white pixel, then a pixel one step from black. *)
Definition strip : Image :=
  mkImage "RGB" 3 1 [[(0, 0, 0); (255, 255, 255); (1, 1, 1)]].

(** A single pixel of light grey, 60 away from white. *)
Definition light_dot : Image := mkImage "RGB" 1 1 [[(195, 195, 195)]].

(** A [w] x [h] white page with the box [block] painted in colour [c]. *)
Definition page (w h : Z) (block : bbox) (c : pixel) : Image :=
  mkImage "RGB" w h
    ((fun y => (fun x => if decide (TrimSpec.inside block x y)
                         then c else TrimSpec.white) <$> seqZ 0 w) <$> seqZ 0 h).

(** The page of [page] with a mark of colour [m] in its corner (0, 0). *)
Definition marked_page (w h : Z) (block : bbox) (c m : pixel) : Image :=
  mkImage "RGB" w h
    ((fun y => (fun x => if decide (x = 0 /\ y = 0) then m
                         else if decide (TrimSpec.inside block x y) then c
                         else TrimSpec.white) <$> seqZ 0 w) <$> seqZ 0 h).

End Samples.

(** ** [optimize_image] over an encoder that can raise

    [img.save] does not write every image: it raises [ValueError] for an
    image without pixels and [OSError] for one with a side beyond what a
    JPEG file can hold.  Here [jpg_bytes] hands on what the encoder raises,
    and the loops of [optimize_image] are the same statements over it.
    [Whatsapp.optimize_image_with] is the instance for an encoder that
    returns a buffer for every image. *)

Module Fallible.
Import PIL Whatsapp.

Section Encoder.

(** [img.save(buf, format="JPEG", quality=q, optimize=True,
    progressive=True)] followed by [buf.getvalue()], or the exception of
    the [save]. *)
Variable save_jpeg : Image -> Z -> result bytes.
(** [img.convert("RGB")] *)
Variable convert_rgb : Image -> Image.
(** The LANCZOS resampling of an image to a valid, different size. *)
Variable lanczos : Image -> Z -> Z -> Image.

Definition jpg_bytes (img : Image) (quality : Z) : Enc bytes :=
  fun log => (log ++ [Encode img quality], save_jpeg img quality).

(** [for q in JPEG_QUALITIES: ...] *)
Fixpoint ladder (budget : Z) (img : Image) (qs : list Z) (data : option bytes)
  : Enc (flow bytes (option bytes)) :=
  match qs with
  | [] => mret (Fallthrough data)
  | q :: qs' =>
      data ← jpg_bytes img q;
      if decide (len data <= budget) then mret (Return data)
      else ladder budget img qs' (Some data)
  end.

(** [for _ in range(n): ...] of the downscale loop. *)
Fixpoint downscale (budget : Z) (n : nat) (w h : Z) (img : Image)
    (data : option bytes) : Enc (flow bytes (option bytes)) :=
  match n with
  | O => mret (Fallthrough data)
  | S n' =>
      let w := int_mul_096 w in
      let h := int_mul_096 h in
      img ← lift (resize lanczos img (w, h));
      data ← jpg_bytes img 65;
      if decide (len data <= budget) then mret (Return data)
      else downscale budget n' w h img (Some data)
  end.

(** [optimize_image], with [TARGET_SIZE_BYTES] as the parameter [budget]. *)
Definition optimize_image_with (budget : Z) (img : Image) : Enc bytes :=
  let img := if decide (mode img ≠ "RGB") then convert_rgb img else img in
  r ← ladder budget img JPEG_QUALITIES None;
  match r with
  | Return data => mret data
  | Fallthrough data =>
      let '(w, h) := img_size img in
      r ← downscale budget 3 w h img data;
      match r with
      | Return data => mret data
      | Fallthrough (Some data) => mret data
      | Fallthrough None => lift (Raise UnboundLocalError)
      end
  end.

Definition optimize_image (img : Image) : Enc bytes :=
  optimize_image_with TARGET_SIZE_BYTES img.

End Encoder.

End Fallible.

(** ** Reference descriptions of the encoder's limits *)

Module FallibleSpec.
Import PIL Whatsapp.

(** An image that a JPEG file can hold: RGB, each side from 1 to 65500. *)
Definition writable (img : Image) : Prop :=
  mode img = "RGB" /\
  1 <= width img <= 65500 /\ 1 <= height img <= 65500.

#[global] Instance writable_dec img : Decision (writable img).
Proof. unfold writable. apply _. Defined.

(** The encoder returns a buffer for every image a JPEG file can hold. *)
Definition writes_all (save_jpeg : Image -> Z -> result bytes) : Prop :=
  forall img q, writable img -> exists data, save_jpeg img q = Ok data.

(** The conversion gives an RGB image of the same size. *)
Definition converts (convert_rgb : Image -> Image) : Prop :=
  forall img,
    mode (convert_rgb img) = "RGB" /\ img_size (convert_rgb img) = img_size img.

(** The resampling gives an image of the size asked for, in the same mode. *)
Definition resamples (lanczos : Image -> Z -> Z -> Image) : Prop :=
  forall img w h,
    mode (lanczos img w h) = mode img /\ img_size (lanczos img w h) = (w, h).

(** Rung [q] of [img] has a buffer, and the buffer is over budget. *)
Definition over (save_jpeg : Image -> Z -> result bytes) (budget : Z)
    (img : Image) (q : Z) : Prop :=
  exists data, save_jpeg img q = Ok data /\ budget < len data.

(** The buffer [data] is what the encoder returned on the call that [log]
    ends with. *)
Definition encoder_returned (save_jpeg : Image -> Z -> result bytes)
    (log : list attempt) (data : bytes) : Prop :=
  exists img q, last log = Some (Encode img q) /\ save_jpeg img q = Ok data.

(** The exception [e] is the one the encoder raised on the call that [log]
    ends with. *)
Definition encoder_raised (save_jpeg : Image -> Z -> result bytes)
    (log : list attempt) (e : exn) : Prop :=
  exists img q, last log = Some (Encode img q) /\ save_jpeg img q = Raise e.

(** The encoder that always returns the buffer of [save_jpeg]. *)
Definition unfailing (save_jpeg : Image -> Z -> bytes)
  : Image -> Z -> result bytes :=
  fun img q => Ok (save_jpeg img q).

(** The toy encoder with the checks of [img.save]. *)
Definition toy_save_jpeg (img : Image) (q : Z) : result bytes :=
  if decide (width img < 1 \/ height img < 1) then Raise ValueError
  else if decide (65500 < width img \/ 65500 < height img) then Raise OSError
  else Ok (Toy.save_jpeg img q).

End FallibleSpec.

(** ** Python strings

    The scripts strip and split the values they read from the environment.
    [str.strip] depends on which code points are white space, so these
    values are lists of code points. *)

Module Py.

Definition str : Type := list N.

(** A literal of the source, every character of which is ASCII. *)
Definition lit (s : string) : str :=
  (fun a => N.of_nat (Ascii.nat_of_ascii a)) <$> String.list_ascii_of_string s.

(** [c.isspace()] for one code point. *)
Definition isspace (c : N) : bool :=
  bool_decide
    (9 <= c <= 13 \/ 28 <= c <= 32 \/ c = 133 \/ c = 160 \/ c = 5760 \/
     8192 <= c <= 8202 \/ c = 8232 \/ c = 8233 \/ c = 8239 \/ c = 8287 \/
     c = 12288)%N.

(** [s.lstrip()] *)
Fixpoint lstrip (s : str) : str :=
  match s with
  | [] => []
  | c :: s' => if isspace c then lstrip s' else s
  end.

(** [s.rstrip()] *)
Fixpoint rstrip (s : str) : str :=
  match s with
  | [] => []
  | c :: s' =>
      match rstrip s' with
      | [] => if isspace c then [] else [c]
      | t => c :: t
      end
  end.

(** [s.strip()] *)
Definition strip (s : str) : str := rstrip (lstrip s).

(** [s.split(sep)] for a separator of one character: the pieces between the
    occurrences of [sep], one more than there are occurrences. *)
Fixpoint split (sep : N) (s : str) : list str :=
  match s with
  | [] => [[]]
  | c :: s' =>
      if decide (c = sep) then [] :: split sep s'
      else match split sep s' with
           | piece :: pieces => (c :: piece) :: pieces
           | [] => [[c]]
           end
  end.

Definition comma : N := 44.
Definition bang : N := 33.

(** The process environment, and [os.getenv(name)]. *)
Definition environ : Type := gmap string str.

Definition getenv (env : environ) (name : string) : option str := env !! name.

(** The truth value of what [os.getenv] returns: [None] and the empty
    string are false. *)
Definition truthy (v : option str) : bool :=
  match v with
  | Some (_ :: _) => true
  | _ => false
  end.

(** [[v for v in required if not os.getenv(v)]] *)
Definition missing (required : list string) (env : environ) : list string :=
  filter (fun v => truthy (getenv env v) = false) required.

End Py.

(** ** Effects of the scripts: HTTP posts and pauses *)

Module Net.
Import Py.

(** What a script can end with instead of a value. *)
Inductive error : Type :=
  | RuntimeError (msg : string)
  | EnvironmentError (msg : string)
  | FileNotFoundError (msg : string)
  | IndexError
  | RequestException.   (* raised inside [requests.post] *)

Inductive outcome (A : Type) : Type :=
  | Done (a : A)
  | Failed (e : error).
Arguments Done {A} a.
Arguments Failed {A} e.

(** The JSON body of a campaign message. *)
Record payload : Type := mkPayload {
  apiKey : option str;
  campaignName : option str;
  destination : str;
  userName : string;
  templateParams : list string;
  source : string;
  media_url : string;
  media_filename : string
}.

Inductive event : Type :=
  | Post (endpoint : string) (body : payload)
  | Sleep (seconds : Z).

(** What [requests.post] does with a body, given all that happened before:
    a response with a status code, or an exception. *)
Inductive response : Type :=
  | Status (code : Z)
  | NoResponse.

Definition server : Type := list event -> string -> payload -> response.

(** Computations that post and pause: the events so far are threaded
    through. *)
Definition IO (A : Type) : Type := list event -> list event * outcome A.

#[global] Instance IO_ret : MRet IO := fun A a tr => (tr, Done a).

#[global] Instance IO_bind : MBind IO := fun A B k m tr =>
  match m tr with
  | (tr', Done a) => k a tr'
  | (tr', Failed e) => (tr', Failed e)
  end.

(** [requests.post(endpoint, json=body, ...)], answering the status code. *)
Definition post (srv : server) (endpoint : string) (body : payload) : IO Z :=
  fun tr =>
    match srv tr endpoint body with
    | Status code => (tr ++ [Post endpoint body], Done code)
    | NoResponse => (tr ++ [Post endpoint body], Failed RequestException)
    end.

(** [time.sleep(seconds)] *)
Definition sleep (seconds : Z) : IO unit :=
  fun tr => (tr ++ [Sleep seconds], Done ()).

Definition exec {A} (m : IO A) : list event * outcome A := m [].

(** The bodies posted, in order. *)
Definition posts (tr : list event) : list payload :=
  omap (fun ev => match ev with Post _ body => Some body | Sleep _ => None end) tr.

End Net.

(** ** The rest of VD_Hourly_Whatsapp.py *)

Module Hourly.
Import Py Net.

(** [DESTINATIONS], as the module computes it when it is loaded. *)
Definition DESTINATIONS (env : environ) : list str :=
  (fun d => strip d)
    <$> filter (fun d => strip d <> [])
          (split comma (default [] (getenv env "DESTINATIONS"))).

(** One entry of [meta["sheets"]]: its [properties]. *)
Record sheet : Type := mkSheet {
  title : string;
  sheetId : Z
}.

(** [get_sheet_gid], on the list [meta["sheets"]] that the Sheets API
    answered. *)
Fixpoint get_sheet_gid (sheets : list sheet) (sheet_name : string)
  : outcome string :=
  match sheets with
  | [] => Failed (RuntimeError ("sheet " +:+ sheet_name +:+ " not found"))
  | sheet :: sheets' =>
      if decide (title sheet = sheet_name) then Done (pretty (sheetId sheet))
      else get_sheet_gid sheets' sheet_name
  end.

(** [range_only = sheet_range.split("!")[1]] of the export loop. *)
Definition range_only (sheet_range : str) : outcome str :=
  match split bang sheet_range !! 1%nat with
  | Some r => Done r
  | None => Failed IndexError
  end.

(** The module constants that [send_via_aisensy] reads. *)
Record settings : Type := mkSettings {
  AISENSY_API_KEY : option str;
  CAMPAIGN_NAME : option str;
  destinations : list str;
  TODAY : string
}.

Definition endpoint : string := "https://backend.aisensy.com/campaign/t1/api".

Definition message (cfg : settings) (dest : str) (i : nat) (url : string)
  : payload :=
  {| apiKey := AISENSY_API_KEY cfg;
     campaignName := CAMPAIGN_NAME cfg;
     destination := dest;
     userName := "PW Online- Analytics";
     templateParams := [TODAY cfg];
     source := "automation-script";
     media_url := url;
     media_filename := "table_" +:+ pretty i +:+ ".jpg" |}.

(** [for i, url in enumerate(urls, start=i): ...], the inner loop. *)
Fixpoint send_urls (srv : server) (cfg : settings) (dest : str) (i : nat)
    (urls : list string) : IO unit :=
  match urls with
  | [] => mret ()
  | url :: urls' =>
      _ ← post srv endpoint (message cfg dest i url);
      _ ← sleep 5;
      send_urls srv cfg dest (S i) urls'
  end.

(** [for dest in DESTINATIONS: ...], the outer loop. *)
Fixpoint send_dests (srv : server) (cfg : settings) (dests : list str)
    (urls : list string) : IO unit :=
  match dests with
  | [] => mret ()
  | dest :: dests' =>
      _ ← send_urls srv cfg dest 1 urls;
      send_dests srv cfg dests' urls
  end.

(** [send_via_aisensy].  The log lines are left out. *)
Definition send_via_aisensy (srv : server) (cfg : settings)
    (urls : list string) : IO unit :=
  match urls with
  | [] => mret ()
  | _ :: _ => send_dests srv cfg (destinations cfg) urls
  end.

Definition required : list string :=
  ["SHEET_ID"; "CLOUD_NAME"; "UPLOAD_PRESET"; "AISENSY_API_KEY"; "DESTINATIONS"].

(** The checks of the main block, before the automation starts.
    [key_file_exists] is [os.path.exists(KEY_FILE)]. *)
Definition startup (env : environ) (key_file_exists : bool) : outcome unit :=
  let missing := missing required env in
  if decide (missing <> []) then
    Failed (EnvironmentError ("missing secrets: " +:+ String.concat ", " missing))
  else if negb key_file_exists then
    Failed (FileNotFoundError "credentials.json not found")
  else Done ().

End Hourly.

(** ** The rest of vd_pdf_report.py *)

Module PdfReport.
Import Py Net.

(** [DESTINATIONS], as the module computes it when it is loaded. *)
Definition DESTINATIONS (env : environ) : list str :=
  (fun d => strip d)
    <$> split comma (default (lit "916303054457") (getenv env "DESTINATIONS")).

Definition FILE_NAME : string := "VD_Report.pdf".

Record settings : Type := mkSettings {
  AISENSY_API_KEY : option str;
  CAMPAIGN_NAME : str;
  destinations : list str;
  TODAY : string
}.

Definition endpoint : string :=
  "https://backend.aisensy.com/campaign/t1/api/v2".

Definition message (cfg : settings) (dest : str) (url : string) : payload :=
  {| apiKey := AISENSY_API_KEY cfg;
     campaignName := Some (CAMPAIGN_NAME cfg);
     destination := dest;
     userName := "PW Online- Analytics";
     templateParams := [TODAY cfg];
     source := "r2-centered";
     media_url := url;
     media_filename := FILE_NAME |}.

(** [for dest in DESTINATIONS: ...] of [send_to_aisensy]. *)
Fixpoint send_each (srv : server) (cfg : settings) (dests : list str)
    (url : string) : IO unit :=
  match dests with
  | [] => mret ()
  | dest :: dests' =>
      _ ← post srv endpoint (message cfg dest url);
      send_each srv cfg dests' url
  end.

(** [send_to_aisensy].  The printed lines are left out. *)
Definition send_to_aisensy (srv : server) (cfg : settings) (url : string)
  : IO unit :=
  send_each srv cfg (destinations cfg) url.

End PdfReport.

(** ** Reference descriptions for the notification loops *)

Module NotifySpec.
Import Py Net.

(** The messages [send_via_aisensy] is to post: for every destination in
    turn, every url in turn, numbered from 1. *)
Definition schedule (cfg : Hourly.settings) (urls : list string)
  : list payload :=
  dest ← Hourly.destinations cfg;
  imap (fun k url => Hourly.message cfg dest (S k) url) urls.

(** One loop over the messages: post, pause 5 seconds, go on. *)
Fixpoint send_all (srv : server) (msgs : list payload) : IO unit :=
  match msgs with
  | [] => mret ()
  | msg :: msgs' =>
      _ ← post srv Hourly.endpoint msg;
      _ ← sleep 5;
      send_all srv msgs'
  end.

(** The events of a run in which every message of [msgs] got a response. *)
Definition paced (msgs : list payload) : list event :=
  msg ← msgs; [Post Hourly.endpoint msg; Sleep 5].

(** A server that answers every post, with whatever status. *)
Definition responsive (srv : server) : Prop :=
  forall tr endpoint body, srv tr endpoint body <> NoResponse.

(** A string made of commas and white space only. *)
Definition blank (s : str) : Prop :=
  Forall (fun c => c = comma \/ isspace c = true) s.

End NotifySpec.

(** * Properties of the size-budgeted encoder *)

Import PIL Whatsapp EncoderSpec.

(** *** The truncated scaling *)

Lemma int_mul_096_bounds w :
  0 <= w -> 96 * w - 99 <= 100 * int_mul_096 w <= 96 * w.
Proof.
  intros Hw. unfold int_mul_096. rewrite Z.quot_div_nonneg by lia.
  pose proof (Z.div_mod (w * 96) 100 ltac:(lia)) as Hdiv.
  pose proof (Z.mod_pos_bound (w * 96) 100 ltac:(lia)) as Hmod. lia.
Qed.

Lemma int_mul_096_room (n : nat) w :
  (n <= 3)%nat -> Z.of_nat n + 1 < w -> Z.of_nat n < int_mul_096 w.
Proof. intros Hn Hw. pose proof (int_mul_096_bounds w). lia. Qed.

Section EncoderFacts.

Variable save_jpeg : Image -> Z -> bytes.
Variable convert_rgb : Image -> Image.
Variable lanczos : Image -> Z -> Z -> Image.

Abbreviation over := (EncoderSpec.over save_jpeg).
Abbreviation round_image := (EncoderSpec.round_image lanczos).
Abbreviation round_attempts := (EncoderSpec.round_attempts lanczos).
Abbreviation latest := (EncoderSpec.latest save_jpeg).
Abbreviation normalized := (EncoderSpec.normalized convert_rgb).

(** *** The quality ladder *)

Lemma ladder_step budget img q qs data log :
  ladder save_jpeg budget img (q :: qs) data log =
    if decide (len (save_jpeg img q) <= budget)
    then (log ++ [Encode img q], Ok (Return (save_jpeg img q)))
    else ladder save_jpeg budget img qs (Some (save_jpeg img q))
           (log ++ [Encode img q]).
Proof.
  cbn. unfold mbind, Enc_bind, jpg_bytes.
  destruct (decide _); reflexivity.
Qed.

Lemma ladder_miss budget img qs : forall data log,
  Forall (over budget img) qs ->
  ladder save_jpeg budget img qs data log =
    (log ++ (Encode img <$> qs),
     Ok (Fallthrough
           (from_option (fun q => Some (save_jpeg img q)) data (last qs)))).
Proof.
  induction qs as [|q qs IH]; intros data log Hall.
  - cbn. by rewrite app_nil_r.
  - apply Forall_cons in Hall as [Hq Hqs]. unfold EncoderSpec.over in Hq.
    rewrite ladder_step, decide_False by lia.
    rewrite IH by done. rewrite <- app_assoc. cbn [app fmap list_fmap].
    destruct qs as [|q' qs]; [reflexivity|].
    change (last (q :: q' :: qs)) with (last (q' :: qs)).
    destruct (last (q' :: qs)) eqn:Hlast; [reflexivity|].
    by apply last_None in Hlast.
Qed.

Lemma ladder_hit budget img before q after : forall data log,
  Forall (over budget img) before ->
  len (save_jpeg img q) <= budget ->
  ladder save_jpeg budget img (before ++ q :: after) data log =
    (log ++ (Encode img <$> before ++ [q]), Ok (Return (save_jpeg img q))).
Proof.
  induction before as [|q' before IH]; intros data log Hall Hfit.
  - cbn [app]. by rewrite ladder_step, decide_True.
  - apply Forall_cons in Hall as [Hq Hqs]. unfold EncoderSpec.over in Hq.
    cbn [app]. rewrite ladder_step, decide_False by lia.
    rewrite IH by done. by rewrite <- app_assoc.
Qed.

(** Either every rung is over budget, or there is a first one that fits. *)
Lemma ladder_cases budget img qs :
  Forall (over budget img) qs \/
  exists before q after,
    qs = before ++ q :: after /\ Forall (over budget img) before /\
    len (save_jpeg img q) <= budget.
Proof.
  induction qs as [|q qs IH].
  - left. constructor.
  - destruct (decide (len (save_jpeg img q) <= budget)) as [Hfit|Hover].
    + right. exists [], q, qs. repeat split; [constructor | done].
    + destruct IH as [Hall | (before & q' & after & -> & Hall & Hfit)].
      * left. constructor; [unfold EncoderSpec.over; lia | done].
      * right. exists (q :: before), q', after. repeat split; [|done].
        constructor; [unfold EncoderSpec.over; lia | done].
Qed.

(** *** The downscale loop *)

Lemma downscale_step budget n w h img data log :
  downscale save_jpeg lanczos budget (S n) w h img data log =
    match resize lanczos img (int_mul_096 w, int_mul_096 h) with
    | Raise e => (log, Raise e)
    | Ok im =>
        if decide (len (save_jpeg im 65) <= budget)
        then (log ++ [Encode im 65], Ok (Return (save_jpeg im 65)))
        else downscale save_jpeg lanczos budget n (int_mul_096 w)
               (int_mul_096 h) im (Some (save_jpeg im 65))
               (log ++ [Encode im 65])
    end.
Proof.
  cbn [downscale]. unfold mbind, Enc_bind, lift, jpg_bytes.
  destruct (resize lanczos img _) as [im|e]; [|reflexivity].
  destruct (decide _); reflexivity.
Qed.

Lemma round_image_succ img k imk :
  round_image img k = Ok imk ->
  round_image img (S k) =
    resize lanczos imk (int_mul_096 (shrunk k (width img)),
                        int_mul_096 (shrunk k (height img))).
Proof. intros Hk. cbn. by rewrite Hk. Qed.

Lemma round_attempts_cons img k n im :
  round_image img k = Ok im ->
  round_attempts img k (S n) = Encode im 65 :: round_attempts img (S k) n.
Proof. intros Hk. unfold EncoderSpec.round_attempts. cbn. by rewrite Hk. Qed.

(** Rounds [k + 1], ..., [k + n] all over budget: the loop runs out. *)
Lemma downscale_miss budget img n : forall k imk data log,
  round_image img k = Ok imk ->
  (forall j, (k < j <= k + n)%nat ->
     exists im, round_image img j = Ok im /\ budget < len (save_jpeg im 65)) ->
  downscale save_jpeg lanczos budget n
      (shrunk k (width img)) (shrunk k (height img)) imk data log =
    (log ++ round_attempts img (S k) n,
     Ok (Fallthrough
           match n with
           | O => data
           | S _ => match round_image img (k + n) with
                    | Ok im => Some (save_jpeg im 65)
                    | Raise _ => None
                    end
           end)).
Proof.
  induction n as [|n IH]; intros k imk data log Hk Hover.
  - cbn. by rewrite app_nil_r.
  - destruct (Hover (S k)) as (im & Him & Hbig); [lia|].
    rewrite downscale_step, <- (round_image_succ _ _ _ Hk), Him.
    rewrite decide_False by lia.
    change (int_mul_096 (shrunk k ?w)) with (shrunk (S k) w).
    rewrite (IH (S k) im) by (done || (intros; apply Hover; lia)).
    rewrite (round_attempts_cons _ _ _ _ Him), <- app_assoc. cbn [app].
    do 3 f_equal. destruct n.
    + by rewrite Nat.add_1_r, Him.
    + by replace (S k + S n)%nat with (k + S (S n))%nat by lia.
Qed.

(** Round [k + i] is the first one within budget: the loop returns it. *)
Lemma downscale_hit budget img n : forall k i imk imi data log,
  (1 <= i <= n)%nat ->
  round_image img k = Ok imk ->
  (forall j, (k < j < k + i)%nat ->
     exists im, round_image img j = Ok im /\ budget < len (save_jpeg im 65)) ->
  round_image img (k + i) = Ok imi ->
  len (save_jpeg imi 65) <= budget ->
  downscale save_jpeg lanczos budget n
      (shrunk k (width img)) (shrunk k (height img)) imk data log =
    (log ++ round_attempts img (S k) i, Ok (Return (save_jpeg imi 65))).
Proof.
  induction n as [|n IH]; intros k i imk imi data log Hi Hk Hover Hki Hfit;
    [lia|].
  rewrite downscale_step, <- (round_image_succ _ _ _ Hk).
  destruct (decide (i = 1%nat)) as [->|Hne].
  - rewrite Nat.add_1_r in Hki. rewrite Hki, decide_True by done.
    by rewrite (round_attempts_cons _ _ 0 _ Hki).
  - destruct (Hover (S k)) as (im & Him & Hbig); [lia|].
    rewrite Him, decide_False by lia.
    change (int_mul_096 (shrunk k ?w)) with (shrunk (S k) w).
    destruct i as [|i]; [lia|].
    rewrite (IH (S k) i im imi); try done; try lia.
    + by rewrite (round_attempts_cons _ _ _ _ Him), <- app_assoc.
    + intros j Hj. apply Hover. lia.
    + by replace (S k + i)%nat with (k + S i)%nat by lia.
Qed.


(** The log of the loop is the log of some number of rounds, at most [n]. *)
Lemma downscale_log budget img n : forall k imk data log log' r,
  round_image img k = Ok imk ->
  downscale save_jpeg lanczos budget n
      (shrunk k (width img)) (shrunk k (height img)) imk data log = (log', r) ->
  exists m, (m <= n)%nat /\ log' = log ++ round_attempts img (S k) m.
Proof.
  induction n as [|n IH]; intros k imk data log log' r Hk Hrun.
  - exists 0%nat. cbn in Hrun. injection Hrun as <- _.
    by rewrite app_nil_r.
  - rewrite downscale_step, <- (round_image_succ _ _ _ Hk) in Hrun.
    destruct (round_image img (S k)) as [im|e] eqn:Him.
    + destruct (decide _) as [Hfit|Hbig].
      * exists 1%nat. injection Hrun as <- _.
        split; [lia|]. by rewrite (round_attempts_cons _ _ 0 _ Him).
      * change (int_mul_096 (shrunk k ?w)) with (shrunk (S k) w) in Hrun.
        apply (IH (S k) im) in Hrun as (m & Hm & ->); [|done].
        exists (S m). split; [lia|].
        by rewrite (round_attempts_cons _ _ _ _ Him), <- app_assoc.
    + exists 0%nat. injection Hrun as <- _.
      split; [lia|]. by rewrite app_nil_r.
Qed.

(** *** What a returned buffer has been through *)

Lemma latest_snoc log im q : latest (log ++ [Encode im q]) (save_jpeg im q).
Proof. exists im, q. by rewrite last_snoc. Qed.

Lemma ladder_inv budget img qs : forall data log log' f,
  ladder save_jpeg budget img qs data log = (log', Ok f) ->
  match f with
  | Return d => latest log' d /\ len d <= budget
  | Fallthrough od =>
      length log' = (length log + length qs)%nat /\
      match qs with
      | [] => od = data /\ log' = log
      | _ :: _ => exists d, od = Some d /\ latest log' d /\ budget < len d
      end
  end.
Proof.
  induction qs as [|q qs IH]; intros data log log' f Hrun.
  - cbn in Hrun. injection Hrun as <- <-. split; [cbn; lia | done].
  - rewrite ladder_step in Hrun. destruct (decide _) as [Hfit|Hbig].
    + injection Hrun as <- <-. split; [apply latest_snoc | done].
    + apply IH in Hrun. destruct f as [d|od]; [done|].
      destruct Hrun as [Hlen Hod]. rewrite length_app in Hlen.
      split; [cbn in *; lia|].
      destruct qs as [|q' qs].
      * destruct Hod as [-> ->].
        exists (save_jpeg img q). split; [done|].
        split; [apply latest_snoc | lia].
      * done.
Qed.

Lemma downscale_inv budget n : forall w h img data log log' f,
  downscale save_jpeg lanczos budget n w h img data log = (log', Ok f) ->
  match f with
  | Return d => latest log' d /\ len d <= budget
  | Fallthrough od =>
      length log' = (length log + n)%nat /\
      match n with
      | O => od = data /\ log' = log
      | S _ => exists d, od = Some d /\ latest log' d /\ budget < len d
      end
  end.
Proof.
  induction n as [|n IH]; intros w h img data log log' f Hrun.
  - cbn in Hrun. injection Hrun as <- <-. split; [cbn; lia | done].
  - rewrite downscale_step in Hrun.
    destruct (resize lanczos img _) as [im|e]; [|done].
    destruct (decide _) as [Hfit|Hbig].
    + injection Hrun as <- <-. split; [apply latest_snoc | done].
    + apply IH in Hrun. destruct f as [d|od]; [done|].
      destruct Hrun as [Hlen Hod]. rewrite length_app in Hlen.
      split; [cbn in *; lia|].
      destruct n as [|n].
      * destruct Hod as [-> ->].
        exists (save_jpeg im 65). split; [done|].
        split; [apply latest_snoc | lia].
      * done.
Qed.

(** *** The whole function *)

Lemma optimize_image_with_unfold budget img log :
  optimize_image_with save_jpeg convert_rgb lanczos budget img log =
    let rgb := normalized img in
    match ladder save_jpeg budget rgb JPEG_QUALITIES None log with
    | (log1, Ok (Return d)) => (log1, Ok d)
    | (log1, Ok (Fallthrough od)) =>
        match downscale save_jpeg lanczos budget 3 (width rgb) (height rgb)
                rgb od log1 with
        | (log2, Ok (Return d)) => (log2, Ok d)
        | (log2, Ok (Fallthrough (Some d))) => (log2, Ok d)
        | (log2, Ok (Fallthrough None)) => (log2, Raise UnboundLocalError)
        | (log2, Raise e) => (log2, Raise e)
        end
    | (log1, Raise e) => (log1, Raise e)
    end.
Proof.
  unfold optimize_image_with, EncoderSpec.normalized, mbind, Enc_bind.
  cbn zeta. destruct (ladder _ _ _ _ _ _) as [log1 [[d|od]|e]]; try reflexivity.
  cbn [img_size].
  destruct (downscale _ _ _ _ _ _ _ _ _) as [log2 [[d|[d|]]|e]]; reflexivity.
Qed.

(** C1.  On an RGB image the ladder [95; 85; 75; 65; 55] is tried in that
  order and the search stops at the first rung whose buffer fits the
  budget: the encoder calls made are exactly those of the rungs before it
  and of that rung, the buffer of that rung is returned, and no rung of
  the ladder that fits has a higher quality. *)
Theorem optimize_image_first_fit budget img before q after :
mode img = "RGB" ->
JPEG_QUALITIES = before ++ q :: after ->
Forall (over budget img) before ->
len (save_jpeg img q) <= budget ->
JPEG_QUALITIES = [95; 85; 75; 65; 55] /\
run (optimize_image_with save_jpeg convert_rgb lanczos budget img) =
  (Encode img <$> before ++ [q], Ok (save_jpeg img q)) /\
(forall q', q' ∈ JPEG_QUALITIES -> len (save_jpeg img q') <= budget -> q' <= q).
Proof.
intros Hmode Hsplit Hover Hfit. split; [reflexivity|]. split.
- unfold run. rewrite optimize_image_with_unfold. cbn zeta.
  unfold EncoderSpec.normalized. rewrite decide_False by (by intros []).
  rewrite Hsplit, ladder_hit by done. reflexivity.
- intros q' Hin Hfit'.
  rewrite Hsplit in Hin. apply elem_of_app in Hin as [Hin|Hin].
  + rewrite Forall_forall in Hover. apply Hover in Hin.
    unfold EncoderSpec.over in Hin. lia.
  + clear Hover. unfold JPEG_QUALITIES in Hsplit.
    do 6 (destruct before as [|? before]; simplify_eq/=;
          try (set_unfold; lia)).
Qed.

(** C2.  When the buffer of the lowest rung (quality 55) fits the budget, the
  search returns a buffer, and that buffer fits the budget. *)
Theorem optimize_image_within_budget budget img :
len (save_jpeg (normalized img) 55) <= budget ->
exists log data,
  run (optimize_image_with save_jpeg convert_rgb lanczos budget img) =
    (log, Ok data) /\
  len data <= budget.
Proof.
intros Hfit. unfold run. rewrite optimize_image_with_unfold. cbn zeta.
destruct (ladder_cases budget (normalized img) JPEG_QUALITIES)
  as [Hall | (before & q & after & Hsplit & Hover & Hq)].
- rewrite Forall_forall in Hall.
  assert (Hin : 55 ∈ JPEG_QUALITIES) by (unfold JPEG_QUALITIES; set_solver).
  apply Hall in Hin. unfold EncoderSpec.over in Hin. lia.
- rewrite Hsplit, ladder_hit by done. eauto.
Qed.



(** C4.  After a ladder that failed on every rung, the downscale loop makes
  at most 3 rounds.  Round [k] works on the image resized to the input
  width and height each scaled by 0.96 and truncated [k] times over, and
  encodes it at quality 65.  The first round whose buffer fits the budget
  ends the loop, and its buffer is returned. *)
Theorem optimize_image_downscale budget img :
Forall (over budget (normalized img)) JPEG_QUALITIES ->
(forall log r,
   run (optimize_image_with save_jpeg convert_rgb lanczos budget img) = (log, r) ->
   exists rounds, (rounds <= 3)%nat /\
     log = (Encode (normalized img) <$> JPEG_QUALITIES) ++
           round_attempts (normalized img) 1 rounds) /\
(forall k prev,
   round_image (normalized img) k = Ok prev ->
   round_image (normalized img) (S k) =
     resize lanczos prev
       (Nat.iter (S k) int_mul_096 (width (normalized img)),
        Nat.iter (S k) int_mul_096 (height (normalized img)))) /\
(forall k imk,
   (1 <= k <= 3)%nat ->
   (forall j, (1 <= j < k)%nat ->
      exists im, round_image (normalized img) j = Ok im /\
                 budget < len (save_jpeg im 65)) ->
   round_image (normalized img) k = Ok imk ->
   len (save_jpeg imk 65) <= budget ->
   run (optimize_image_with save_jpeg convert_rgb lanczos budget img) =
     ((Encode (normalized img) <$> JPEG_QUALITIES) ++
      round_attempts (normalized img) 1 k, Ok (save_jpeg imk 65))).
Proof.
intros Hladder. split; [|split].
- intros log r. unfold run. rewrite optimize_image_with_unfold. cbn zeta.
  rewrite ladder_miss by done.
  change (width ?i) with (shrunk 0 (width i)) at 1.
  change (height ?i) with (shrunk 0 (height i)) at 1.
  destruct (downscale _ _ _ _ _ _ _ _ _) as [log2 r2] eqn:Hloop.
  apply (downscale_log budget (normalized img) 3 0 (normalized img))
    in Hloop as (m & Hm & ->); [|done].
  intros Hrun. exists m. split; [done|].
  destruct r2 as [[d|[d|]]|e]; by injection Hrun as <- _.
- intros k prev Hk. by rewrite (round_image_succ _ _ _ Hk).
- intros k imk Hk Hover Himk Hfit.
  unfold run. rewrite optimize_image_with_unfold. cbn zeta.
  rewrite ladder_miss by done.
  change (width ?i) with (shrunk 0 (width i)) at 1.
  change (height ?i) with (shrunk 0 (height i)) at 1.
  by rewrite (downscale_hit budget (normalized img) 3 0 k (normalized img) imk)
    by (done || lia || (intros; apply Hover; lia)).
Qed.

(** C5.  Whatever [optimize_image] returns is the buffer of the encoder call
  it made last, and it has been compared with the budget: either it fits,
  or the run went through all 5 rungs and all 3 rounds, and the buffer of
  the last round is returned although it is over budget. *)
Theorem optimize_image_guarded_returns budget img log data :
run (optimize_image_with save_jpeg convert_rgb lanczos budget img) =
  (log, Ok data) ->
latest log data /\
(len data <= budget \/ (length log = (5 + 3)%nat /\ budget < len data)).
Proof.
unfold run. rewrite optimize_image_with_unfold. cbn zeta.
destruct (ladder _ _ _ _ _ _) as [log1 [f1|e1]] eqn:Hladder; [|done].
apply ladder_inv in Hladder. destruct f1 as [d|od].
- intros [= <- <-]. destruct Hladder. eauto.
- destruct Hladder as [Hlen1 _].
  destruct (downscale _ _ _ _ _ _ _ _ _) as [log2 [f2|e2]] eqn:Hloop; [|done].
  apply downscale_inv in Hloop. destruct f2 as [d|od2].
  + intros [= <- <-]. destruct Hloop. eauto.
  + destruct Hloop as [Hlen2 (d & -> & Hlatest & Hbig)].
    intros [= <- <-]. split; [done|]. right.
    split; [|done]. rewrite Hlen2, Hlen1. reflexivity.
Qed.

End EncoderFacts.

(** *** The encoder theorems at work on the toy encoder

    A 10 x 10 image costs [100 q] bytes at quality [q]; its downscale rounds
    are 9 x 9, 8 x 8 and 7 x 7. *)

Lemma optimize_image_first_fit_witness :
  run (optimize_image_with Toy.save_jpeg Toy.convert_rgb Toy.lanczos 7500
         (Toy.blank 10 10)) =
    (Encode (Toy.blank 10 10) <$> [95; 85; 75],
     Ok (Toy.save_jpeg (Toy.blank 10 10) 75)).
Proof.
  apply (optimize_image_first_fit Toy.save_jpeg Toy.convert_rgb Toy.lanczos
           7500 (Toy.blank 10 10) [95; 85] 75 [65; 55]).
  - reflexivity.
  - reflexivity.
  - repeat constructor.
  - vm_compute. discriminate.
Defined.

Lemma optimize_image_within_budget_witness :
  exists log data,
    run (optimize_image_with Toy.save_jpeg Toy.convert_rgb Toy.lanczos 6000
           (Toy.blank 10 10)) = (log, Ok data) /\
    len data <= 6000.
Proof.
  apply (optimize_image_within_budget Toy.save_jpeg Toy.convert_rgb
           Toy.lanczos 6000 (Toy.blank 10 10)).
  vm_compute. discriminate.
Defined.



Lemma optimize_image_downscale_witness :
  run (optimize_image_with Toy.save_jpeg Toy.convert_rgb Toy.lanczos 4200
         (Toy.blank 10 10)) =
    ((Encode (Toy.blank 10 10) <$> JPEG_QUALITIES) ++
     [Encode (Toy.lanczos (Toy.blank 10 10) 9 9) 65;
      Encode (Toy.lanczos (Toy.lanczos (Toy.blank 10 10) 9 9) 8 8) 65],
     Ok (Toy.save_jpeg (Toy.lanczos (Toy.lanczos (Toy.blank 10 10) 9 9) 8 8) 65)).
Proof.
  refine (proj2 (proj2 (optimize_image_downscale Toy.save_jpeg
            Toy.convert_rgb Toy.lanczos 4200 (Toy.blank 10 10) _))
            2%nat _ _ _ _ _).
  - repeat constructor.
  - lia.
  - intros j Hj. assert (j = 1%nat) as -> by lia.
    eexists. split; [reflexivity|]. vm_compute. reflexivity.
  - reflexivity.
  - vm_compute. discriminate.
Defined.

Lemma optimize_image_guarded_returns_witness :
  latest Toy.save_jpeg (Encode (Toy.blank 10 10) <$> [95; 85; 75])
    (Toy.save_jpeg (Toy.blank 10 10) 75) /\
  (len (Toy.save_jpeg (Toy.blank 10 10) 75) <= 7500 \/
   (length (Encode (Toy.blank 10 10) <$> [95; 85; 75]) = (5 + 3)%nat /\
    7500 < len (Toy.save_jpeg (Toy.blank 10 10) 75))).
Proof.
  apply (optimize_image_guarded_returns Toy.save_jpeg Toy.convert_rgb
           Toy.lanczos 7500 (Toy.blank 10 10)).
  vm_compute. reflexivity.
Defined.

(** * Properties of the Pillow operations *)

Import TrimSpec.

(** *** Pixels of a well-formed image *)

Lemma pixel_at_Some img x y p :
  pixel_at img x y = Some p <->
  0 <= x /\ 0 <= y /\
  exists row, rows img !! Z.to_nat y = Some row /\ row !! Z.to_nat x = Some p.
Proof.
  unfold pixel_at. destruct (decide _) as [[Hx Hy]|Hneg].
  - destruct (rows img !! Z.to_nat y) as [row|]; cbn.
    + split; [by eauto 6|]. by intros (_ & _ & row' & [= <-] & Hp).
    + split; [done|]. by intros (_ & _ & row' & [=] & _).
  - split; [done|]. intros (? & ? & _). lia.
Qed.

Lemma rgb_image_row img y row :
  rgb_image img -> rows img !! y = Some row ->
  Z.of_nat (length row) = width img /\ Z.of_nat y < height img.
Proof.
  intros (_ & _ & _ & Hh & Hrows) Hrow. split.
  - rewrite Forall_lookup in Hrows. by apply (Hrows _ _ Hrow).
  - apply lookup_lt_Some in Hrow. lia.
Qed.

Lemma pixel_at_bounds img x y p :
  rgb_image img -> pixel_at img x y = Some p ->
  0 <= x < width img /\ 0 <= y < height img.
Proof.
  intros Hwf (Hx & Hy & row & Hrow & Hp)%pixel_at_Some.
  destruct (rgb_image_row _ _ _ Hwf Hrow) as [Hlen Hlt].
  apply lookup_lt_Some in Hp. lia.
Qed.

Lemma pixel_at_in_bounds img x y :
  rgb_image img -> 0 <= x < width img -> 0 <= y < height img ->
  is_Some (pixel_at img x y).
Proof.
  intros Hwf Hx Hy. pose proof Hwf as (_ & _ & _ & Hh & _).
  destruct (lookup_lt_is_Some_2 (rows img) (Z.to_nat y)) as [row Hrow]; [lia|].
  destruct (rgb_image_row _ _ _ Hwf Hrow) as [Hlen _].
  destruct (lookup_lt_is_Some_2 row (Z.to_nat x)) as [p Hp]; [lia|].
  exists p. apply pixel_at_Some. split; [lia|]. split; [lia|]. eauto.
Qed.

Lemma pixel_at_Image_new m w h c x y :
  0 <= x < w -> 0 <= y < h -> pixel_at (Image_new m (w, h) c) x y = Some c.
Proof.
  intros Hx Hy. apply pixel_at_Some. split; [lia|]. split; [lia|].
  exists (replicate (Z.to_nat w) c). split; apply lookup_replicate_2; lia.
Qed.

Lemma pixel_at_chop f a b x y :
  pixel_at (chop f a b) x y =
    p ← pixel_at a x y; q ← pixel_at b x y; Some (zip_chan f p q).
Proof.
  unfold pixel_at. destruct (decide _); [|done]. cbn.
  rewrite lookup_zip_with.
  destruct (rows a !! Z.to_nat y) as [ra|]; [|done]. cbn.
  destruct (rows b !! Z.to_nat y) as [rb|]; cbn.
  - rewrite lookup_zip_with. reflexivity.
  - by destruct (ra !! Z.to_nat x).
Qed.

(** *** The bounding-box scan *)

Lemma scan_row_spec row : forall x has x0 x1 has' x0' x1',
  scan_row x row (has, x0, x1) = (has', x0', x1') ->
  (has' = true <->
     has = true \/ exists i p, row !! i = Some p /\ nonzero p = true) /\
  (x0' <= x0 /\ x1 <= x1') /\
  (forall i p, row !! i = Some p -> nonzero p = true ->
     x0' <= x + Z.of_nat i < x1') /\
  (x0' = x0 \/
   exists i p, row !! i = Some p /\ nonzero p = true /\ x0' = x + Z.of_nat i) /\
  (x1' = x1 \/
   exists i p, row !! i = Some p /\ nonzero p = true /\
               x1' = x + Z.of_nat i + 1).
Proof.
  induction row as [|p row IH]; intros x has x0 x1 has' x0' x1' Hscan.
  - cbn in Hscan. simplify_eq. split_and!; try lia; try (by left).
    + split; [by left|]. by intros [?|(i & q & [=] & _)].
    + by intros i q [=].
  - cbn [scan_row] in Hscan. destruct (nonzero p) eqn:Hp.
    + apply IH in Hscan as (Hhas & Hmono & Hin & Hlo & Hhi).
      split_and!.
      * split; [|intros _; apply Hhas; by left].
        intros _. right. by exists 0%nat, p.
      * repeat case_decide; lia.
      * repeat case_decide; lia.
      * intros [|i] q Hq Hnz; cbn in Hq.
        -- repeat case_decide; lia.
        -- specialize (Hin i q Hq Hnz). lia.
      * destruct Hlo as [->|(i & q & Hq & Hnz & ->)].
        -- destruct (decide (x < x0)); [|by left]. right. exists 0%nat, p.
           split_and!; [done..|lia].
        -- right. exists (S i), q. split_and!; [done..|lia].
      * destruct Hhi as [->|(i & q & Hq & Hnz & ->)].
        -- destruct (decide (x1 <= x)); [|by left]. right. exists 0%nat, p.
           split_and!; [done..|lia].
        -- right. exists (S i), q. split_and!; [done..|lia].
    + apply IH in Hscan as (Hhas & Hmono & Hin & Hlo & Hhi).
      split_and!.
      * split.
        -- intros [?|(i & q & Hq & Hnz)]%Hhas; [by left|].
           right. by exists (S i), q.
        -- intros [?|(i & q & Hq & Hnz)]; apply Hhas; [by left|].
           destruct i as [|i]; cbn in Hq; [congruence|]. right. by exists i, q.
      * lia.
      * lia.
      * intros [|i] q Hq Hnz; cbn in Hq; [congruence|].
        specialize (Hin i q Hq Hnz). lia.
      * destruct Hlo as [->|(i & q & Hq & Hnz & ->)]; [by left|].
        right. exists (S i), q. split_and!; [done..|lia].
      * destruct Hhi as [->|(i & q & Hq & Hnz & ->)]; [by left|].
        right. exists (S i), q. split_and!; [done..|lia].
Qed.

Lemma nonzero_in_cons_0 row rs i :
  nonzero_in (row :: rs) i 0 <->
  exists p, row !! i = Some p /\ nonzero p = true.
Proof.
  unfold nonzero_in. cbn. split.
  - by intros (row' & p & [= <-] & Hp & Hnz); exists p.
  - intros (p & Hp & Hnz). by exists row, p.
Qed.

Lemma nonzero_in_cons_S row rs i j :
  nonzero_in (row :: rs) i (S j) <-> nonzero_in rs i j.
Proof. reflexivity. Qed.

Lemma scan_rows_spec rs : forall y x0 y0 x1 y1 x0' y0' x1' y1',
  0 <= y -> y1 <= y ->
  scan_rows y rs (x0, y0, x1, y1) = (x0', y0', x1', y1') ->
  (x0' <= x0 /\ x1 <= x1' /\ y1 <= y1') /\
  (forall i j, nonzero_in rs i j ->
     x0' <= Z.of_nat i < x1' /\ y + Z.of_nat j < y1' /\
     0 <= y0' /\ (y0 < 0 -> y0' <= y + Z.of_nat j)) /\
  (x0' = x0 \/ exists i j, nonzero_in rs i j /\ x0' = Z.of_nat i) /\
  (x1' = x1 \/ exists i j, nonzero_in rs i j /\ x1' = Z.of_nat i + 1) /\
  (y1' = y1 \/ exists i j, nonzero_in rs i j /\ y1' = y + Z.of_nat j + 1) /\
  (y0' = y0 \/
   y0 < 0 /\ exists i j, nonzero_in rs i j /\ y0' = y + Z.of_nat j).
Proof.
  induction rs as [|row rs IH];
    intros y x0 y0 x1 y1 x0' y0' x1' y1' Hy Hy1 Hscan.
  - cbn in Hscan. simplify_eq. split_and!; try lia; try (by left).
    by intros i j (row & p & [=] & _).
  - cbn [scan_rows] in Hscan.
    destruct (scan_row 0 row (false, x0, x1)) as [[has xa] xb] eqn:Hrow.
    apply scan_row_spec in Hrow as (Hhas & [Hxa Hxb] & Hin & Hlo & Hhi).
    destruct has.
    + (* the row has data *)
      destruct Hhas as [Hhas _].
      destruct Hhas as [?|(i0 & p0 & Hp0 & Hnz0)]; [done..|].
      assert (Hnz : nonzero_in (row :: rs) i0 0)
        by (apply nonzero_in_cons_0; eauto).
      apply IH in Hscan as
        ((Hx0 & Hx1 & Hy1') & Hall & Hlo' & Hhi' & Htop & Hbot); [|lia..].
      assert (Hbot0 : 0 <= y0' /\ (y0 < 0 -> y0' <= y)).
      { destruct Hbot as [->|[Hneg _]]; repeat case_decide; lia. }
      split_and!; try lia.
      * intros i [|j] Hij.
        -- apply nonzero_in_cons_0 in Hij as (p & Hp & Hpnz).
           specialize (Hin i p Hp Hpnz). lia.
        -- apply nonzero_in_cons_S in Hij. specialize (Hall i j Hij).
           destruct Hbot as [->|[Hneg _]]; repeat case_decide; lia.
      * destruct Hlo' as [->|(i & j & Hij & ->)].
        -- destruct Hlo as [->|(i & p & Hp & Hpnz & ->)]; [by left|].
           right. exists i, 0%nat. split; [|lia].
           apply nonzero_in_cons_0. eauto.
        -- right. by exists i, (S j).
      * destruct Hhi' as [->|(i & j & Hij & ->)].
        -- destruct Hhi as [->|(i & p & Hp & Hpnz & ->)]; [by left|].
           right. exists i, 0%nat. split; [|lia].
           apply nonzero_in_cons_0. eauto.
        -- right. by exists i, (S j).
      * right. destruct Htop as [->|(i & j & Hij & ->)].
        -- exists i0, 0%nat. split; [done|lia].
        -- exists i, (S j). split; [done|lia].
      * destruct Hbot as [->|[Hneg _]].
        -- destruct (decide (y0 < 0)); [|by left].
           right. split; [done|]. exists i0, 0%nat. split; [done|lia].
        -- case_decide; lia.
    + (* the row has no data *)
      assert (Hnone : forall i, ~ nonzero_in (row :: rs) i 0).
      { intros i (p & Hp & Hpnz)%nonzero_in_cons_0.
        destruct Hhas as [_ Hhas]. discriminate Hhas. right. eauto. }
      assert (xa = x0) as ->.
      { destruct Hlo as [->|(i & p & Hp & Hpnz & _)]; [done|].
        destruct (Hnone i). apply nonzero_in_cons_0. eauto. }
      assert (xb = x1) as ->.
      { destruct Hhi as [->|(i & p & Hp & Hpnz & _)]; [done|].
        destruct (Hnone i). apply nonzero_in_cons_0. eauto. }
      apply IH in Hscan as
        ((Hx0 & Hx1 & Hy1') & Hall & Hlo' & Hhi' & Htop & Hbot); [|lia..].
      split_and!; try lia.
      * intros i [|j] Hij; [by destruct (Hnone i)|].
        apply nonzero_in_cons_S in Hij. specialize (Hall i j Hij). lia.
      * destruct Hlo' as [->|(i & j & Hij & ->)]; [by left|].
        right. by exists i, (S j).
      * destruct Hhi' as [->|(i & j & Hij & ->)]; [by left|].
        right. by exists i, (S j).
      * destruct Htop as [->|(i & j & Hij & ->)]; [by left|].
        right. exists i, (S j). split; [done|lia].
      * destruct Hbot as [->|(Hneg & i & j & Hij & ->)]; [by left|].
        right. split; [done|]. exists i, (S j). split; [done|lia].
Qed.

Lemma nonzero_at_in img x y :
  nonzero_at img x y <->
  0 <= x /\ 0 <= y /\ nonzero_in (rows img) (Z.to_nat x) (Z.to_nat y).
Proof.
  unfold nonzero_at, nonzero_in. split.
  - intros (p & (Hx & Hy & row & Hrow & Hp)%pixel_at_Some & Hnz). eauto 8.
  - intros (Hx & Hy & row & p & Hrow & Hp & Hnz).
    exists p. split; [|done]. apply pixel_at_Some. eauto.
Qed.

Lemma nonzero_in_at img i j :
  nonzero_in (rows img) i j -> nonzero_at img (Z.of_nat i) (Z.of_nat j).
Proof.
  intros Hij. apply nonzero_at_in. rewrite !Nat2Z.id.
  split; [lia|]. split; [lia|done].
Qed.

Lemma nonzero_at_bounds img x y :
  rgb_image img -> nonzero_at img x y ->
  0 <= x < width img /\ 0 <= y < height img.
Proof. intros Hwf (p & Hp & _). by eapply pixel_at_bounds. Qed.

(** [getbbox] answers [None] exactly on the images without a non-zero pixel. *)
Lemma getbbox_None img :
  getbbox img = None <-> forall x y, ~ nonzero_at img x y.
Proof.
  unfold getbbox.
  destruct (scan_rows 0 (rows img) (width img, -1, 0, 0))
    as [[[x0 y0] x1] y1] eqn:Hscan.
  apply scan_rows_spec in Hscan as (_ & Hall & _ & _ & _ & Hbot); [|lia..].
  split.
  - intros Hnone x y (_ & _ & Hnz)%nonzero_at_in.
    apply Hall in Hnz. case_decide; [lia|done].
  - intros Hnone. destruct Hbot as [->|(_ & i & j & Hij & _)].
    + by rewrite decide_True by lia.
    + destruct (Hnone _ _ (nonzero_in_at _ _ _ Hij)).
Qed.

(** A box that [getbbox] answers is the tight box of the non-zero pixels. *)
Lemma getbbox_Some img box :
  rgb_image img -> getbbox img = Some box -> tight_bbox img box.
Proof.
  intros Hwf. unfold getbbox.
  destruct (scan_rows 0 (rows img) (width img, -1, 0, 0))
    as [[[x0 y0] x1] y1] eqn:Hscan.
  apply scan_rows_spec in Hscan as (_ & Hall & Hlo & Hhi & Htop & Hbot);
    [|lia..].
  case_decide as Hy0; [done|]. intros [= <-].
  destruct Hbot as [->|(_ & ib & jb & Hb & ->)]; [lia|].
  pose proof (Hall _ _ Hb) as Hbb.
  pose proof (nonzero_at_bounds _ _ _ Hwf (nonzero_in_at _ _ _ Hb)) as Hbw.
  unfold tight_bbox. split_and!.
  - intros x y (Hx & Hy & Hnz)%nonzero_at_in. apply Hall in Hnz. lia.
  - destruct Hlo as [->|(i & j & Hij & ->)]; [lia|].
    exists (Z.of_nat j). by apply nonzero_in_at.
  - destruct Hhi as [->|(i & j & Hij & ->)]; [lia|].
    exists (Z.of_nat j). replace (Z.of_nat i + 1 - 1) with (Z.of_nat i) by lia.
    by apply nonzero_in_at.
  - exists (Z.of_nat ib). rewrite Z.add_0_l. by apply nonzero_in_at.
  - destruct Htop as [->|(i & j & Hij & ->)]; [lia|].
    exists (Z.of_nat i).
    replace (0 + Z.of_nat j + 1 - 1) with (Z.of_nat j) by lia.
    by apply nonzero_in_at.
Qed.

Lemma tight_bbox_unique img box1 box2 :
  tight_bbox img box1 -> tight_bbox img box2 -> box1 = box2.
Proof.
  destruct box1 as [[[a0 b0] a1] b1], box2 as [[[c0 d0] c1] d1].
  intros (Hin1 & [ya Hxa] & [yb Hxb] & [xa Hya] & [xb Hyb])
         (Hin2 & [yc Hxc] & [yd Hxd] & [xc Hyc] & [xd Hyd]).
  apply Hin2 in Hxa, Hxb, Hya, Hyb. apply Hin1 in Hxc, Hxd, Hyc, Hyd.
  do 3 f_equal; lia.
Qed.

(** Conversely [getbbox] finds the tight box. *)
Lemma getbbox_tight img box :
  rgb_image img -> tight_bbox img box -> getbbox img = Some box.
Proof.
  intros Hwf Htight. destruct (getbbox img) as [box'|] eqn:Hbox.
  - f_equal. eapply tight_bbox_unique; [|done]. by apply getbbox_Some.
  - destruct box as [[[x0 y0] x1] y1]. destruct Htight as (_ & [y Hy] & _).
    rewrite getbbox_None in Hbox. destruct (Hbox _ _ Hy).
Qed.

Lemma tight_bbox_within img box :
  rgb_image img -> tight_bbox img box -> box_within img box.
Proof.
  destruct box as [[[x0 y0] x1] y1].
  intros Hwf (Hin & [ya Hxa] & [yb Hxb] & [xa Hya] & [xb Hyb]).
  pose proof (Hin _ _ Hxa). 
  apply (nonzero_at_bounds _ _ _ Hwf) in Hxa, Hxb, Hya, Hyb.
  unfold box_within. lia.
Qed.

(** Two images with the same non-zero positions have the same box. *)
Lemma getbbox_same_nonzero a b :
  rgb_image a -> rgb_image b ->
  (forall x y, nonzero_at a x y <-> nonzero_at b x y) ->
  getbbox a = getbbox b.
Proof.
  intros Ha Hb Hsame. destruct (getbbox a) as [box|] eqn:Hbox.
  - symmetry. apply getbbox_tight; [done|]. apply getbbox_Some in Hbox; [|done].
    destruct box as [[[x0 y0] x1] y1].
    destruct Hbox as (Hin & [ya Hxa] & [yb Hxb] & [xa Hya] & [xb Hyb]).
    split_and!; [intros x y Hxy; apply Hin, Hsame, Hxy|..];
      eexists; apply Hsame; eassumption.
  - symmetry. apply getbbox_None. intros x y Hxy%Hsame.
    rewrite getbbox_None in Hbox. by destruct (Hbox x y).
Qed.

(** *** Cropping *)

Lemma pixel_at_crop_rows img x0 y0 w h i j :
  0 <= i < w -> 0 <= j < h ->
  pixel_at
    (mkImage (mode img) w h
       ((fun y => (fun x => default black (pixel_at img x y)) <$> seqZ x0 w)
          <$> seqZ y0 h)) i j =
  Some (default black (pixel_at img (x0 + i) (y0 + j))).
Proof.
  intros Hi Hj. apply pixel_at_Some. split; [lia|]. split; [lia|]. cbn.
  eexists. rewrite list_lookup_fmap, lookup_seqZ_lt by lia. cbn.
  split; [reflexivity|].
  rewrite list_lookup_fmap, lookup_seqZ_lt by lia. cbn.
  by rewrite !Z2Nat.id by lia.
Qed.

(** A box inside the image is cut out as it is, and nothing is raised. *)
Lemma crop_region img x0 y0 x1 y1 :
  rgb_image img ->
  0 <= x0 <= x1 -> x1 <= width img -> 0 <= y0 <= y1 -> y1 <= height img ->
  exists out, crop img (x0, y0, x1, y1) = Ok out /\
              region_of img (x0, y0, x1, y1) out.
Proof.
  intros Hwf Hx Hx1 Hy Hy1. unfold crop.
  rewrite !decide_False by lia. eexists. split; [reflexivity|].
  unfold region_of. split_and!; [done..|].
  intros i j Hi Hj. rewrite pixel_at_crop_rows by done.
  destruct (pixel_at_in_bounds img (x0 + i) (y0 + j)) as [p ->]; [done|lia..|].
  reflexivity.
Qed.

(** Cropping to the full extent gives the image back. *)
Lemma crop_full img :
  rgb_image img -> crop img (0, 0, width img, height img) = Ok img.
Proof.
  intros Hwf. pose proof Hwf as (_ & Hw & Hh & Hlen & _).
  unfold crop. rewrite !decide_False by lia. rewrite !Z.sub_0_r.
  destruct img as [m w h rs]. cbn in *. do 2 f_equal.
  apply list_eq. intros j. rewrite list_lookup_fmap.
  destruct (decide (Z.of_nat j < h)) as [Hj|Hj].
  - rewrite lookup_seqZ_lt by done. cbn.
    destruct (lookup_lt_is_Some_2 rs j) as [row Hrow]; [lia|].
    rewrite Hrow. f_equal.
    destruct (rgb_image_row _ _ _ Hwf Hrow) as [Hrlen _]. cbn in Hrlen.
    apply list_eq. intros i. rewrite list_lookup_fmap.
    destruct (decide (Z.of_nat i < w)) as [Hi|Hi].
    + rewrite lookup_seqZ_lt by done. cbn.
      destruct (lookup_lt_is_Some_2 row i) as [p Hp]; [lia|].
      rewrite Hp. f_equal.
      assert (pixel_at (mkImage m w h rs) (0 + Z.of_nat i) (0 + Z.of_nat j)
              = Some p) as ->; [|done].
      apply pixel_at_Some. split; [lia|]. split; [lia|].
      exists row. rewrite !Z.add_0_l, !Nat2Z.id. done.
    + rewrite lookup_seqZ_ge by lia. cbn. symmetry.
      apply lookup_ge_None. lia.
  - rewrite lookup_seqZ_ge by lia. cbn. symmetry.
    apply lookup_ge_None. lia.
Qed.

(** *** Channel operations keep images well formed *)

Lemma clip8_ok v : chan_ok (clip8 v).
Proof. unfold clip8, chan_ok. repeat case_decide; lia. Qed.

Lemma rgb_image_new w h c :
  0 <= w -> 0 <= h -> pixel_ok c -> rgb_image (Image_new "RGB" (w, h) c).
Proof.
  intros Hw Hh Hc. unfold rgb_image. cbn.
  split_and!; [done|lia|lia|rewrite length_replicate; lia|].
  apply Forall_replicate. split; [rewrite length_replicate; lia|].
  by apply Forall_replicate.
Qed.

Lemma rgb_image_chop f a b :
  (forall u v, chan_ok u -> chan_ok v -> chan_ok (f u v)) ->
  rgb_image a -> rgb_image b ->
  width a = width b -> height a = height b ->
  rgb_image (chop f a b).
Proof.
  intros Hf (Hma & Hwa & Hha & Hla & Hra) (Hmb & Hwb & Hhb & Hlb & Hrb) Hw Hh.
  unfold rgb_image. cbn.
  split_and!; [done|lia|lia|rewrite length_zip_with; lia|].
  rewrite Forall_lookup in Hra, Hrb. apply Forall_lookup. intros j row.
  intros (ra & rb & -> & Ha & Hb)%lookup_zip_with_Some.
  destruct (Hra _ _ Ha) as [Hlena Hpa], (Hrb _ _ Hb) as [Hlenb Hpb].
  split; [rewrite length_zip_with; lia|].
  rewrite Forall_lookup in Hpa, Hpb. apply Forall_lookup. intros i p.
  intros ([[r1 g1] b1] & [[r2 g2] b2] & -> & Hp & Hq)%lookup_zip_with_Some.
  destruct (Hpa _ _ Hp) as (? & ? & ?), (Hpb _ _ Hq) as (? & ? & ?).
  cbn. auto.
Qed.

(** *** The amplified difference of [trim_white_space] *)

Lemma abs_diff_ok u v : chan_ok u -> chan_ok v -> chan_ok (Z.abs (u - v)).
Proof. unfold chan_ok. lia. Qed.

Lemma add_chan_ok scale offset u v : chan_ok (add_chan scale offset u v).
Proof. apply clip8_ok. Qed.

Lemma add_chan_self d : add_chan 2 (-100) d d = clip8 (d - 100).
Proof.
  unfold add_chan. f_equal.
  replace (d + d + -100 * 2) with ((d - 100) * 2) by lia.
  by rewrite Z.quot_mul.
Qed.

Lemma white_ok : pixel_ok white.
Proof. unfold white, pixel_ok, chan_ok. lia. Qed.

Lemma rgb_image_amplified img : rgb_image img -> rgb_image (amplified img).
Proof.
  intros Hwf. pose proof Hwf as (Hm & Hw & Hh & _).
  assert (Hd : rgb_image
            (difference img (Image_new (mode img) (img_size img) white))).
  { apply rgb_image_chop; [apply abs_diff_ok|done|..|done|done].
    rewrite Hm. by apply rgb_image_new, white_ok. }
  unfold amplified.
  apply rgb_image_chop; [intros; apply add_chan_ok|done..].
Qed.

(** The amplification takes the distance [d] of a channel from white to
    [d - 100], saturated. *)
Lemma amplified_pixel img x y r g b :
  rgb_image img -> pixel_at img x y = Some (r, g, b) ->
  pixel_at (amplified img) x y =
    Some (clip8 (from_white r - 100), clip8 (from_white g - 100),
          clip8 (from_white b - 100)).
Proof.
  intros Hwf Hp. destruct (pixel_at_bounds _ _ _ _ Hwf Hp) as [Hx Hy].
  unfold amplified, add, difference, img_size.
  rewrite !pixel_at_chop, Hp, pixel_at_Image_new by done. cbn.
  by rewrite !add_chan_self.
Qed.

Lemma amplified_pixel_None img x y :
  pixel_at img x y = None -> pixel_at (amplified img) x y = None.
Proof.
  intros Hp. unfold amplified, add, difference.
  by rewrite !pixel_at_chop, Hp.
Qed.

Lemma clip8_pos v : clip8 v = 0 <-> v <= 0.
Proof. unfold clip8. repeat case_decide; lia. Qed.

(** The non-zero pixels of the amplified difference are the dark pixels. *)
Lemma amplified_nonzero img x y :
  rgb_image img ->
  nonzero_at (amplified img) x y <->
  exists p, pixel_at img x y = Some p /\ dark p = true.
Proof.
  intros Hwf. unfold nonzero_at. split.
  - intros (q & Hq & Hnz).
    destruct (pixel_at img x y) as [[[r g] b]|] eqn:Hp;
      [|by rewrite amplified_pixel_None in Hq].
    rewrite (amplified_pixel _ _ _ _ _ _ Hwf Hp) in Hq. injection Hq as <-.
    exists (r, g, b). split; [done|]. unfold dark. cbn in Hnz.
    apply negb_true_iff, andb_false_iff in Hnz.
    rewrite andb_false_iff, !bool_decide_eq_false, !clip8_pos in Hnz.
    rewrite !orb_true_iff, !bool_decide_eq_true. lia.
  - intros ([[r g] b] & Hp & Hdark).
    eexists. split; [by apply amplified_pixel|]. unfold dark in Hdark. cbn.
    rewrite !orb_true_iff, !bool_decide_eq_true in Hdark.
    apply negb_true_iff, andb_false_iff.
    rewrite andb_false_iff, !bool_decide_eq_false, !clip8_pos. lia.
Qed.

(** *** Whitening the pixels that are not dark *)

Lemma dark_white : dark white = false.
Proof. reflexivity. Qed.

Lemma dark_ok_or_white p :
  pixel_ok p -> pixel_ok (if dark p then p else white).
Proof. intros Hp. destruct (dark p); [done|apply white_ok]. Qed.

Lemma rgb_image_whitened img : rgb_image img -> rgb_image (whitened img).
Proof.
  intros (Hm & Hw & Hh & Hlen & Hrows). unfold rgb_image. cbn.
  split_and!; [done..|by rewrite length_fmap|].
  apply Forall_fmap. eapply Forall_impl; [exact Hrows|].
  intros row [Hrow Hpx]. cbn. split; [by rewrite length_fmap|].
  apply Forall_fmap. eapply Forall_impl; [exact Hpx|].
  intros p Hp. by apply dark_ok_or_white.
Qed.

Lemma pixel_at_whitened img x y :
  pixel_at (whitened img) x y =
    (fun p => if dark p then p else white) <$> pixel_at img x y.
Proof.
  unfold pixel_at. case_decide; [|done]. cbn. rewrite list_lookup_fmap.
  destruct (rows img !! Z.to_nat y) as [row|]; [|done]. cbn.
  by rewrite list_lookup_fmap.
Qed.

Lemma whitened_dark img x y :
  (exists p, pixel_at (whitened img) x y = Some p /\ dark p = true) <->
  (exists p, pixel_at img x y = Some p /\ dark p = true).
Proof.
  rewrite pixel_at_whitened. split.
  - intros (q & Hq & Hdark). destruct (pixel_at img x y) as [p|]; [|done].
    cbn in Hq. injection Hq as <-. exists p. split; [done|].
    destruct (dark p); [done|]. by rewrite dark_white in Hdark.
  - intros (p & -> & Hdark). exists p. cbn. by rewrite Hdark.
Qed.

(** *** A page with one painted block *)

Lemma block_image_dark_inside img block c x y p :
  block_image img block c ->
  pixel_at img x y = Some p -> dark p = true ->
  inside block x y /\ p = c.
Proof.
  intros Hblock Hp Hdark. rewrite (Hblock _ _ _ Hp) in Hdark |- *.
  case_decide; [done|]. by rewrite dark_white in Hdark.
Qed.

Lemma block_image_inside img block c x y :
  rgb_image img -> box_within img block -> block_image img block c ->
  inside block x y -> pixel_at img x y = Some c.
Proof.
  destruct block as [[[x0 y0] x1] y1].
  intros Hwf Hin Hblock Hxy. unfold box_within in Hin. pose proof Hxy as Hxy'.
  unfold inside in Hxy'.
  destruct (pixel_at_in_bounds img x y) as [p Hp]; [done|lia..|].
  by rewrite Hp, (Hblock _ _ _ Hp), decide_True.
Qed.

(** The box of a dark block on a white page is the block. *)
Lemma block_image_tight img block c :
  rgb_image img -> box_within img block -> block_image img block c ->
  dark c = true ->
  tight_bbox (amplified img) block.
Proof.
  intros Hwf Hin Hblock Hdark.
  assert (Hnz : forall x y, inside block x y ->
                            nonzero_at (amplified img) x y).
  { intros x y Hxy. apply amplified_nonzero; [done|]. exists c.
    split; [by eapply block_image_inside|done]. }
  destruct block as [[[x0 y0] x1] y1]. unfold box_within in Hin.
  unfold tight_bbox. split_and!.
  - intros x y (p & Hp & Hpd)%amplified_nonzero; [|done].
    by destruct (block_image_dark_inside _ _ _ _ _ _ Hblock Hp Hpd).
  - exists y0. apply Hnz. cbn. lia.
  - exists y0. apply Hnz. cbn. lia.
  - exists x0. apply Hnz. cbn. lia.
  - exists x0. apply Hnz. cbn. lia.
Qed.

(** A block is found exactly when its colour is dark. *)
Lemma block_image_detected img block c :
  rgb_image img -> box_within img block -> block_image img block c ->
  getbbox (amplified img) <> None <-> dark c = true.
Proof.
  intros Hwf Hin Hblock. split.
  - intros Hsome. destruct (dark c) eqn:Hdark; [done|]. destruct Hsome.
    apply getbbox_None. intros x y (p & Hp & Hpd)%amplified_nonzero; [|done].
    destruct (block_image_dark_inside _ _ _ _ _ _ Hblock Hp Hpd) as [_ ->].
    congruence.
  - intros Hdark.
    rewrite (getbbox_tight _ block); [done|by apply rgb_image_amplified|].
    by apply (block_image_tight _ _ c).
Qed.

(** * Properties of [trim_white_space] *)

Lemma trim_white_space_unfold img :
  Report.trim_white_space img =
    match getbbox (amplified img) with
    | Some (x0, y0, x1, y1) =>
        crop img (Z.max 0 (x0 - 15), Z.max 0 (y0 - 15),
                  Z.min (width img) (x1 + 15), Z.min (height img) (y1 + 15))
    | None => Ok img
    end.
Proof.
  unfold Report.trim_white_space.
  by destruct (getbbox _) as [[[[x0 y0] x1] y1]|].
Qed.

(** With a box found, the result is the padded and clamped crop. *)
Lemma trim_white_space_found img x0 y0 x1 y1 :
  rgb_image img ->
  getbbox (amplified img) = Some (x0, y0, x1, y1) ->
  exists out,
    Report.trim_white_space img = Ok out /\
    Report.trim_white_space img =
      crop img (Z.max 0 (x0 - 15), Z.max 0 (y0 - 15),
                Z.min (width img) (x1 + 15), Z.min (height img) (y1 + 15)) /\
    region_of img
      (Z.max 0 (x0 - 15), Z.max 0 (y0 - 15),
       Z.min (width img) (x1 + 15), Z.min (height img) (y1 + 15)) out.
Proof.
  intros Hwf Hbox.
  pose proof (tight_bbox_within _ _ (rgb_image_amplified _ Hwf)
                (getbbox_Some _ _ (rgb_image_amplified _ Hwf) Hbox)) as Hin.
  unfold box_within in Hin.
  change (width (amplified img)) with
    (Z.min (Z.min (width img) (width img)) (Z.min (width img) (width img)))
    in Hin.
  change (height (amplified img)) with
    (Z.min (Z.min (height img) (height img)) (Z.min (height img) (height img)))
    in Hin.
  rewrite trim_white_space_unfold, Hbox.
  destruct (crop_region img (Z.max 0 (x0 - 15)) (Z.max 0 (y0 - 15))
              (Z.min (width img) (x1 + 15)) (Z.min (height img) (y1 + 15)))
    as (out & Hcrop & Hregion); [done|lia..|].
  exists out. by rewrite Hcrop.
Qed.

(** A dark block on a white page comes back with its margin of 15. *)
Lemma trim_white_space_block img bx0 by0 bx1 by1 c :
  rgb_image img ->
  box_within img (bx0, by0, bx1, by1) ->
  block_image img (bx0, by0, bx1, by1) c ->
  dark c = true ->
  exists out,
    Report.trim_white_space img = Ok out /\
    region_of img
      (Z.max 0 (bx0 - 15), Z.max 0 (by0 - 15),
       Z.min (width img) (bx1 + 15), Z.min (height img) (by1 + 15)) out.
Proof.
  intros Hwf Hin Hblock Hdark.
  destruct (trim_white_space_found img bx0 by0 bx1 by1)
    as (out & Hout & _ & Hregion); [done| |by exists out].
  apply getbbox_tight; [by apply rgb_image_amplified|].
  by apply (block_image_tight _ _ c).
Qed.

(** C7.  When the content box [(x0, y0, x1, y1)] is found, [trim_white_space]
    returns the image cropped to the box grown by 15 on its four sides, with
    [x0] and [y0] kept from going below 0 and [x1] and [y1] kept from going
    beyond the width and the height; the crop raises nothing and is the
    region of the input under that box.  On a white page with one block of a
    single colour whose box is found, that region is the block grown by 15
    and clamped in the same way; the block is found exactly when its colour
    has a channel more than 100 away from white. *)
Theorem trim_white_space_padded_crop img :
  rgb_image img ->
  (forall x0 y0 x1 y1,
     getbbox (amplified img) = Some (x0, y0, x1, y1) ->
     exists out,
       Report.trim_white_space img = Ok out /\
       Report.trim_white_space img =
         crop img (Z.max 0 (x0 - 15), Z.max 0 (y0 - 15),
                   Z.min (width img) (x1 + 15), Z.min (height img) (y1 + 15)) /\
       region_of img
         (Z.max 0 (x0 - 15), Z.max 0 (y0 - 15),
          Z.min (width img) (x1 + 15), Z.min (height img) (y1 + 15)) out) /\
  (forall bx0 by0 bx1 by1 c,
     box_within img (bx0, by0, bx1, by1) ->
     block_image img (bx0, by0, bx1, by1) c ->
     (getbbox (amplified img) <> None <-> dark c = true) /\
     (getbbox (amplified img) <> None ->
      exists out,
        Report.trim_white_space img = Ok out /\
        region_of img
          (Z.max 0 (bx0 - 15), Z.max 0 (by0 - 15),
           Z.min (width img) (bx1 + 15), Z.min (height img) (by1 + 15)) out)).
Proof.
  intros Hwf. split.
  - intros x0 y0 x1 y1 Hbox. by apply trim_white_space_found.
  - intros bx0 by0 bx1 by1 c Hin Hblock.
    pose proof (block_image_detected _ _ _ Hwf Hin Hblock) as Hdet.
    split; [done|]. intros Hdark%Hdet. by apply (trim_white_space_block _ _ _ _ _ c).
Qed.

Lemma pixel_at_ok img x y p :
  rgb_image img -> pixel_at img x y = Some p -> pixel_ok p.
Proof.
  intros (_ & _ & _ & _ & Hrows) (_ & _ & row & Hrow & Hp)%pixel_at_Some.
  rewrite Forall_lookup in Hrows. destruct (Hrows _ _ Hrow) as [_ Hpx].
  rewrite Forall_lookup in Hpx. by apply (Hpx _ _ Hp).
Qed.

Lemma clip8_max d : d <= 355 -> clip8 (d - 100) = Z.max (d - 100) 0.
Proof. intros Hd. unfold clip8. repeat case_decide; lia. Qed.

(** C9, as the code has it.  The amplification that [trim_white_space]
    applies to the distance [d] of a channel from white, before the box is
    taken, is the affine map [1 * d - 100], saturated to the channel range:
    the difference is added to itself and the sum divided by 2.0, then
    offset by -100. *)
Theorem trim_white_space_amplification img x y r g b :
  rgb_image img ->
  pixel_at img x y = Some (r, g, b) ->
  (forall d, add_chan 2 (-100) d d = clip8 (1 * d - 100)) /\
  pixel_at (amplified img) x y =
    Some (clip8 (1 * from_white r - 100), clip8 (1 * from_white g - 100),
          clip8 (1 * from_white b - 100)) /\
  Report.trim_white_space img =
    match getbbox (amplified img) with
    | Some (x0, y0, x1, y1) =>
        crop img (Z.max 0 (x0 - 15), Z.max 0 (y0 - 15),
                  Z.min (width img) (x1 + 15), Z.min (height img) (y1 + 15))
    | None => Ok img
    end.
Proof.
  intros Hwf Hp. split_and!.
  - intros d. by rewrite add_chan_self, Z.mul_1_l.
  - by rewrite !Z.mul_1_l; apply amplified_pixel.
  - apply trim_white_space_unfold.
Qed.

(** C9, as the claim has it, fails: a pixel 60 away from white is taken to
    0 by the code, where a gain of 3 would take it to 80. *)
Lemma trim_white_space_gain_not_3 :
  rgb_image Samples.light_dot /\
  pixel_at Samples.light_dot 0 0 = Some (195, 195, 195) /\
  from_white 195 = 60 /\
  gain3_chan 60 = 80 /\
  pixel_at (amplified Samples.light_dot) 0 0 = Some (0, 0, 0) /\
  pixel_at (amplified Samples.light_dot) 0 0 <>
    Some (gain3_chan (from_white 195), gain3_chan (from_white 195),
          gain3_chan (from_white 195)).
Proof.
  split_and!; try reflexivity; [|discriminate].
  apply (bool_decide_unpack _). vm_compute. exact I.
Qed.

(** *** The box is the one of the dark pixels *)

Lemma black_ok : pixel_ok black.
Proof. unfold black, pixel_ok, chan_ok. lia. Qed.

(** A crop of a well-formed image is well formed. *)
Lemma crop_rgb_image img box out :
  rgb_image img -> crop img box = Ok out -> rgb_image out.
Proof.
  destruct box as [[[x0 y0] x1] y1]. intros Hwf. pose proof Hwf as (Hm & _).
  unfold crop. repeat case_decide; try done. intros [= <-].
  unfold rgb_image. cbn.
  split_and!; [done|lia|lia|rewrite length_fmap, length_seqZ; lia|].
  apply Forall_fmap, Forall_forall. intros y _. cbn.
  split; [rewrite length_fmap, length_seqZ; lia|].
  apply Forall_fmap, Forall_forall. intros x _. cbn.
  destruct (pixel_at img x y) as [p|] eqn:Hp; cbn.
  - by eapply pixel_at_ok.
  - apply black_ok.
Qed.

Lemma dark_box_tight img box :
  rgb_image img -> dark_box img box <-> tight_bbox (amplified img) box.
Proof.
  intros Hwf. destruct box as [[[x0 y0] x1] y1]. unfold dark_box, tight_bbox.
  assert (Hsame : forall x y, nonzero_at (amplified img) x y <-> dark_at img x y)
    by (intros x y; by apply amplified_nonzero).
  split; intros (Hin & [ya Hxa] & [yb Hxb] & [xa Hya] & [xb Hyb]);
    (split_and!; [intros x y Hxy; apply Hin, Hsame, Hxy|..]);
    eexists; apply Hsame; eassumption.
Qed.

(** [getbbox] answers the box of the dark pixels, and only that one. *)
Lemma dark_box_getbbox img box :
  rgb_image img -> getbbox (amplified img) = Some box <-> dark_box img box.
Proof.
  intros Hwf. rewrite dark_box_tight by done. split.
  - apply getbbox_Some. by apply rgb_image_amplified.
  - apply getbbox_tight. by apply rgb_image_amplified.
Qed.

Lemma light_not_dark r g b :
  from_white r <= 100 -> from_white g <= 100 -> from_white b <= 100 ->
  dark (r, g, b) = false.
Proof.
  intros Hr Hg Hb. unfold dark.
  rewrite !orb_false_iff, !bool_decide_eq_false. lia.
Qed.

(** C10.  In [trim_white_space] the amplified difference of a channel at
    distance [d] from white is [max (d - 100) 0], and the box of the crop is
    taken from it.  A pixel whose three channels are within 100 of white is
    zero there and is no content: the box that the code finds is the
    smallest box around the pixels with a channel more than 100 away from
    white, whatever the other pixels are, and the result is the same crop
    as with those other pixels painted white.  What the code returns is the
    part of the input in that box grown by 15 and clamped; every pixel of
    the result comes from there, so lighter content outside it is cut off,
    and an image without a pixel beyond the threshold comes back whole. *)
Theorem trim_white_space_threshold img :
  rgb_image img ->
  (forall x y r g b,
     pixel_at img x y = Some (r, g, b) ->
     pixel_at (amplified img) x y =
       Some (Z.max (from_white r - 100) 0, Z.max (from_white g - 100) 0,
             Z.max (from_white b - 100) 0)) /\
  Report.trim_white_space img =
    match getbbox (amplified img) with
    | Some (x0, y0, x1, y1) =>
        crop img (Z.max 0 (x0 - 15), Z.max 0 (y0 - 15),
                  Z.min (width img) (x1 + 15), Z.min (height img) (y1 + 15))
    | None => Ok img
    end /\
  (forall x y r g b,
     pixel_at img x y = Some (r, g, b) ->
     from_white r <= 100 -> from_white g <= 100 -> from_white b <= 100 ->
     pixel_at (amplified img) x y = Some (0, 0, 0) /\
     ~ nonzero_at (amplified img) x y /\
     ~ dark_at img x y) /\
  (forall box, getbbox (amplified img) = Some box <-> dark_box img box) /\
  Report.trim_white_space img =
    match getbbox (amplified (whitened img)) with
    | Some (x0, y0, x1, y1) =>
        crop img (Z.max 0 (x0 - 15), Z.max 0 (y0 - 15),
                  Z.min (width img) (x1 + 15), Z.min (height img) (y1 + 15))
    | None => Ok img
    end /\
  (forall x0 y0 x1 y1,
     dark_box img (x0, y0, x1, y1) ->
     exists out,
       Report.trim_white_space img = Ok out /\
       region_of img
         (Z.max 0 (x0 - 15), Z.max 0 (y0 - 15),
          Z.min (width img) (x1 + 15), Z.min (height img) (y1 + 15)) out /\
       forall i j,
         is_Some (pixel_at out i j) ->
         x0 - 15 <= Z.max 0 (x0 - 15) + i < x1 + 15 /\
         y0 - 15 <= Z.max 0 (y0 - 15) + j < y1 + 15) /\
  ((forall x y, ~ dark_at img x y) ->
   Report.trim_white_space img = Ok img).
Proof.
  intros Hwf.
  assert (Hamp : forall x y r g b,
     pixel_at img x y = Some (r, g, b) ->
     pixel_at (amplified img) x y =
       Some (Z.max (from_white r - 100) 0, Z.max (from_white g - 100) 0,
             Z.max (from_white b - 100) 0)).
  { intros x y r g b Hp.
    destruct (pixel_at_ok _ _ _ _ Hwf Hp) as (Hr & Hg & Hb).
    unfold chan_ok in *. rewrite (amplified_pixel _ _ _ _ _ _ Hwf Hp).
    unfold from_white. by rewrite !clip8_max by lia. }
  assert (Hwhite : getbbox (amplified img) = getbbox (amplified (whitened img))).
  { apply getbbox_same_nonzero;
      [by apply rgb_image_amplified
      |by apply rgb_image_amplified, rgb_image_whitened|].
    intros x y.
    rewrite !amplified_nonzero by (done || by apply rgb_image_whitened).
    symmetry. apply whitened_dark. }
  split_and!.
  - exact Hamp.
  - apply trim_white_space_unfold.
  - intros x y r g b Hp Hr Hg Hb.
    assert (Hnot : ~ dark_at img x y).
    { intros (q & Hq & Hdark). rewrite Hp in Hq. injection Hq as <-.
      by rewrite light_not_dark in Hdark. }
    split_and!; [|by rewrite amplified_nonzero|done].
    rewrite (Hamp _ _ _ _ _ Hp). do 2 f_equal; [f_equal|]; lia.
  - intros box. by apply dark_box_getbbox.
  - rewrite <- Hwhite. apply trim_white_space_unfold.
  - intros x0 y0 x1 y1 Hbox%dark_box_getbbox; [|done].
    destruct (trim_white_space_found _ _ _ _ _ Hwf Hbox)
      as (out & Hout & Hcrop & Hregion).
    exists out. split_and!; [done..|]. intros i j [p Hp].
    assert (Hwfo : rgb_image out).
    { rewrite Hout in Hcrop. symmetry in Hcrop.
      by apply (crop_rgb_image _ _ _ Hwf Hcrop). }
    destruct (pixel_at_bounds _ _ _ _ Hwfo Hp) as [Hi Hj].
    destruct Hregion as (_ & Hw & Hh & _). lia.
  - intros Hlight. rewrite trim_white_space_unfold.
    destruct (getbbox (amplified img)) as [box|] eqn:Hbox; [|done].
    assert (Hnone : getbbox (amplified img) = None); [|congruence].
    apply getbbox_None. intros x y Hxy%amplified_nonzero; [|done].
    by destruct (Hlight x y).
Qed.

(** * Properties of [crop_white_space] *)

Lemma crop_white_space_unfold img :
  Whatsapp.crop_white_space img =
    d ← enhanced_difference img;
    match getbbox d with
    | Some box => crop img box
    | None => Ok img
    end.
Proof.
  unfold Whatsapp.crop_white_space, enhanced_difference, background.
  by destruct (getpixel img (0, 0)).
Qed.

Lemma getpixel_origin img :
  rgb_image img -> 0 < width img -> 0 < height img ->
  exists c, pixel_at img 0 0 = Some c /\ getpixel img (0, 0) = Ok c.
Proof.
  intros Hwf Hw Hh.
  destruct (pixel_at_in_bounds img 0 0) as [c Hc]; [done|lia..|].
  exists c. split; [done|]. unfold getpixel.
  rewrite !decide_False by lia. by rewrite Hc.
Qed.

(** *** Uniform images *)

Lemma uniform_rows img c :
  rgb_image img -> uniform img c ->
  rows img =
    replicate (Z.to_nat (height img)) (replicate (Z.to_nat (width img)) c).
Proof.
  intros Hwf Hc. pose proof Hwf as (_ & _ & _ & Hlen & _).
  apply list_eq. intros j.
  destruct (decide (j < Z.to_nat (height img))%nat) as [Hj|Hj].
  - rewrite lookup_replicate_2 by done.
    destruct (lookup_lt_is_Some_2 (rows img) j) as [row Hrow]; [lia|].
    rewrite Hrow. f_equal.
    destruct (rgb_image_row _ _ _ Hwf Hrow) as [Hrlen _].
    apply list_eq. intros i.
    destruct (decide (i < Z.to_nat (width img))%nat) as [Hi|Hi].
    + rewrite lookup_replicate_2 by done.
      destruct (lookup_lt_is_Some_2 row i) as [p Hp]; [lia|].
      rewrite Hp. f_equal. apply (Hc (Z.of_nat i) (Z.of_nat j)).
      apply pixel_at_Some. split; [lia|]. split; [lia|].
      exists row. by rewrite !Nat2Z.id.
    + rewrite lookup_ge_None_2 by lia. symmetry.
      apply lookup_replicate_None. lia.
  - rewrite lookup_ge_None_2 by lia. symmetry.
    apply lookup_replicate_None. lia.
Qed.

Lemma zip_chan_abs_diag c : zip_chan (fun u v => Z.abs (u - v)) c c = black.
Proof. destruct c as [[r g] b]. cbn. by rewrite !Z.sub_diag. Qed.

Lemma sum_luminance_black n :
  foldr Z.add 0 (rgb2l <$> replicate n black) = 0.
Proof. induction n as [|n IH]; [done|]. cbn in *. by rewrite IH. Qed.

Lemma concat_replicate_replicate {A} (n m : nat) (x : A) :
  concat (replicate n (replicate m x)) = replicate (n * m) x.
Proof.
  induction n as [|n IH]; [done|]. cbn. by rewrite IH, replicate_add.
Qed.

(** The mean luminance of a black image that has pixels is 0. *)
Lemma mean_luminance_black m w h :
  0 < w -> 0 < h ->
  mean_luminance
    (mkImage m w h (replicate (Z.to_nat h) (replicate (Z.to_nat w) black)))
  = Ok 0.
Proof.
  intros Hw Hh. unfold mean_luminance. cbn [rows].
  rewrite concat_replicate_replicate, sum_luminance_black.
  rewrite length_fmap, length_replicate.
  rewrite decide_False by nia. f_equal.
  apply Z.div_small. nia.
Qed.

(** On a uniform image the enhanced difference is black. *)
Lemma enhanced_difference_uniform img c :
  rgb_image img -> 0 < width img -> 0 < height img -> uniform img c ->
  enhanced_difference img =
    Ok (mkImage (mode img) (width img) (height img)
          (replicate (Z.to_nat (height img))
             (replicate (Z.to_nat (width img)) black))).
Proof.
  intros Hwf Hw Hh Hc.
  destruct (getpixel_origin img) as (c0 & Hc0 & Hget); [done..|].
  apply Hc in Hc0 as ->.
  unfold enhanced_difference, background. rewrite Hget. cbn [mbind result_bind].
  assert (Hdiff :
    difference img (Image_new (mode img) (img_size img) c) =
      mkImage (mode img) (width img) (height img)
        (replicate (Z.to_nat (height img))
           (replicate (Z.to_nat (width img)) black))).
  { unfold difference, chop, Image_new, img_size. cbn [mode width height rows].
    rewrite !Z.min_id. f_equal.
    rewrite (uniform_rows _ _ Hwf Hc) at 1.
    by rewrite !zip_with_replicate, zip_chan_abs_diag. }
  rewrite Hdiff. unfold Contrast_enhance.
  rewrite mean_luminance_black by done. cbn [mbind result_bind].
  unfold blend. rewrite !decide_False by done. f_equal.
  unfold chop, Image_new, img_size. cbn [mode width height rows].
  rewrite !Z.min_id. f_equal.
  by rewrite !zip_with_replicate.
Qed.

Lemma getbbox_black m w h :
  getbbox (mkImage m w h (replicate (Z.to_nat h) (replicate (Z.to_nat w) black)))
  = None.
Proof.
  apply getbbox_None. intros x y (p & Hp & Hnz).
  apply pixel_at_Some in Hp as (_ & _ & row & Hrow & Hp). cbn in Hrow.
  apply lookup_replicate_1 in Hrow as [-> _].
  apply lookup_replicate_1 in Hp as [-> _]. done.
Qed.

(** *** The enhanced difference never fails on an image with pixels *)

Lemma rgb2l_ok p : pixel_ok p -> chan_ok (rgb2l p).
Proof.
  destruct p as [[r g] b]. intros (Hr & Hg & Hb). unfold chan_ok in *.
  unfold rgb2l. rewrite Z.shiftr_div_pow2 by lia.
  change (2 ^ 16) with 65536. split.
  - apply Z.div_pos; lia.
  - apply Z.lt_succ_r, Z.div_lt_upper_bound; lia.
Qed.

Lemma sum_luminance_bounds ls :
  Forall chan_ok ls ->
  0 <= foldr Z.add 0 ls <= 255 * Z.of_nat (length ls).
Proof.
  induction 1 as [|l ls Hl _ IH]; cbn [foldr length]; [lia|].
  unfold chan_ok in Hl. lia.
Qed.

Lemma rgb_image_pixels_ok img :
  rgb_image img -> Forall pixel_ok (concat (rows img)).
Proof.
  intros (_ & _ & _ & _ & Hrows). apply Forall_concat.
  eapply Forall_impl; [exact Hrows|]. by intros row [_ Hpx].
Qed.

Lemma mean_luminance_ok img :
  rgb_image img -> 0 < width img -> 0 < height img ->
  exists m, mean_luminance img = Ok m /\ chan_ok m.
Proof.
  intros Hwf Hw Hh. unfold mean_luminance.
  pose proof (sum_luminance_bounds (rgb2l <$> concat (rows img))) as Hsum.
  assert (Hpos : 0 < Z.of_nat (length (rgb2l <$> concat (rows img)))).
  { destruct (pixel_at_in_bounds img 0 0) as [p Hp]; [done|lia..|].
    apply pixel_at_Some in Hp as (_ & _ & row & Hrow & Hp).
    destruct (rows img) as [|row' rs]; [done|]. injection Hrow as ->.
    destruct row as [|p' row]; [done|]. cbn. lia. }
  rewrite decide_False by lia. eexists. split; [reflexivity|].
  destruct Hsum as [Hlo Hhi].
  { apply Forall_fmap. eapply Forall_impl; [by apply rgb_image_pixels_ok|].
    intros p Hp. by apply rgb2l_ok. }
  unfold chan_ok. split.
  - apply Z.div_pos; lia.
  - apply Z.lt_succ_r, Z.div_lt_upper_bound; lia.
Qed.

Lemma enhanced_difference_ok img :
  rgb_image img -> 0 < width img -> 0 < height img ->
  exists d, enhanced_difference img = Ok d /\ rgb_image d /\
            width d = width img /\ height d = height img.
Proof.
  intros Hwf Hw Hh. pose proof Hwf as (Hm & _).
  destruct (getpixel_origin img) as (c & Hc & Hget); [done..|].
  unfold enhanced_difference, background. rewrite Hget.
  cbn [mbind result_bind].
  assert (Hdiff : rgb_image
            (difference img (Image_new (mode img) (img_size img) c))).
  { apply rgb_image_chop; [apply abs_diff_ok|done|..|done|done].
    rewrite Hm. apply rgb_image_new; [lia..|]. by eapply pixel_at_ok. }
  unfold Contrast_enhance.
  destruct (mean_luminance_ok _ Hdiff) as (m & -> & Hmean);
    [cbn; lia..|].
  cbn [mbind result_bind]. eexists. split; [reflexivity|].
  unfold blend. rewrite !decide_False by done.
  split; [|cbn; lia].
  apply rgb_image_chop; [intros; apply clip8_ok| |done|cbn; lia..].
  change (mode (difference img ?bg)) with (mode img). rewrite Hm.
  apply rgb_image_new; [cbn; lia..|]. done.
Qed.

(** [crop_white_space] raises nothing on an image with pixels. *)
Lemma crop_white_space_ok img :
  rgb_image img -> 0 < width img -> 0 < height img ->
  exists out, Whatsapp.crop_white_space img = Ok out.
Proof.
  intros Hwf Hw Hh.
  destruct (enhanced_difference_ok img) as (d & Hd & Hdwf & Hdw & Hdh);
    [done..|].
  rewrite crop_white_space_unfold, Hd. cbn [mbind result_bind].
  destruct (getbbox d) as [[[[x0 y0] x1] y1]|] eqn:Hbox; [|by exists img].
  pose proof (tight_bbox_within _ _ Hdwf (getbbox_Some _ _ Hdwf Hbox)) as Hin.
  unfold box_within in Hin.
  destruct (crop_region img x0 y0 x1 y1) as (out & Hout & _);
    [done|lia..|].
  by exists out.
Qed.

(** C6.  On an image of a single colour [crop_white_space] raises nothing
    and returns the image itself, so with the dimensions it came with; and
    when the box it finds is the whole image, it raises nothing either and
    returns the image itself.  It raises on no image that has pixels. *)
Theorem crop_white_space_uniform img :
  rgb_image img -> 0 < width img -> 0 < height img ->
  (forall c, uniform img c ->
     Whatsapp.crop_white_space img = Ok img /\
     exists out, Whatsapp.crop_white_space img = Ok out /\
                 img_size out = img_size img) /\
  (forall d, enhanced_difference img = Ok d ->
     getbbox d = Some (0, 0, width img, height img) ->
     Whatsapp.crop_white_space img = Ok img) /\
  (exists d out, enhanced_difference img = Ok d /\
                 Whatsapp.crop_white_space img = Ok out).
Proof.
  intros Hwf Hw Hh. split_and!.
  - intros c Hc.
    assert (Hsame : Whatsapp.crop_white_space img = Ok img).
    { rewrite crop_white_space_unfold, (enhanced_difference_uniform _ c) by done.
      cbn [mbind result_bind]. by rewrite getbbox_black. }
    split; [done|]. by exists img.
  - intros d Hd Hbox. rewrite crop_white_space_unfold, Hd.
    cbn [mbind result_bind]. rewrite Hbox. by apply crop_full.
  - destruct (enhanced_difference_ok img) as (d & Hd & _); [done..|].
    destruct (crop_white_space_ok img) as (out & Hout); [done..|].
    by exists d, out.
Qed.

Lemma uniform_new m sz c : uniform (Image_new m sz c) c.
Proof.
  destruct sz as [w h]. intros x y p (_ & _ & row & Hrow & Hp)%pixel_at_Some.
  cbn in Hrow. apply lookup_replicate_1 in Hrow as [-> _].
  by apply lookup_replicate_1 in Hp as [-> _].
Qed.

Lemma difference_pixel img c x y p :
  rgb_image img -> pixel_at img x y = Some p ->
  pixel_at (difference img (Image_new (mode img) (img_size img) c)) x y =
    Some (zip_chan (fun u v => Z.abs (u - v)) p c).
Proof.
  intros Hwf Hp. destruct (pixel_at_bounds _ _ _ _ Hwf Hp) as [Hx Hy].
  unfold difference, img_size.
  by rewrite pixel_at_chop, Hp, pixel_at_Image_new.
Qed.

Lemma difference_pixel_inv img c x y q :
  pixel_at (difference img (Image_new (mode img) (img_size img) c)) x y
    = Some q ->
  0 <= x < width img /\ 0 <= y < height img.
Proof.
  unfold difference. rewrite pixel_at_chop. intros Hq.
  destruct (pixel_at img x y) as [p|]; [|done]. cbn in Hq.
  destruct (pixel_at _ x y) as [p'|] eqn:Hbg; [|done].
  apply pixel_at_Some in Hbg as (Hx & Hy & row & Hrow & Hp'). cbn in Hrow.
  apply lookup_replicate_1 in Hrow as [-> Hj].
  apply lookup_replicate_1 in Hp' as [_ Hi]. lia.
Qed.

(** C8, as the code has it.  [crop_white_space] takes the colour of the
    pixel at (0, 0) as the background: the difference it computes is, pixel
    by pixel and channel by channel, the absolute difference between the
    input and the uniform image of that colour.  The box is taken from that
    difference after the contrast enhancement by 3, which takes a channel
    [v] to [m + 3 (v - m)], saturated, [m] being the rounded mean luminance
    of the difference. *)
Theorem crop_white_space_background img :
  rgb_image img -> 0 < width img -> 0 < height img ->
  exists c,
    pixel_at img 0 0 = Some c /\
    background img = Ok (Image_new (mode img) (img_size img) c) /\
    uniform (Image_new (mode img) (img_size img) c) c /\
    (forall x y p,
       pixel_at img x y = Some p ->
       pixel_at (difference img (Image_new (mode img) (img_size img) c)) x y =
         Some (zip_chan (fun u v => Z.abs (u - v)) p c)) /\
    Whatsapp.crop_white_space img =
      (d ← Contrast_enhance
             (difference img (Image_new (mode img) (img_size img) c)) 3;
       match getbbox d with
       | Some box => crop img box
       | None => Ok img
       end) /\
    (forall d,
       Contrast_enhance
         (difference img (Image_new (mode img) (img_size img) c)) 3 = Ok d ->
       exists m,
         mean_luminance
           (difference img (Image_new (mode img) (img_size img) c)) = Ok m /\
         forall x y p,
           pixel_at (difference img (Image_new (mode img) (img_size img) c)) x y
             = Some p ->
           pixel_at d x y =
             Some (map_chan (fun v => clip8 (m + 3 * (v - m))) p)).
Proof.
  intros Hwf Hw Hh.
  destruct (getpixel_origin img) as (c & Hc & Hget); [done..|].
  exists c. split_and!.
  - done.
  - unfold background. by rewrite Hget.
  - apply uniform_new.
  - intros x y p Hp. by apply difference_pixel.
  - unfold Whatsapp.crop_white_space. by rewrite Hget.
  - intros d. unfold Contrast_enhance.
    destruct (mean_luminance _) as [m|e]; [|done].
    cbn [mbind result_bind]. intros [= <-]. exists m. split; [done|].
    intros x y [[r g] b] Hp. unfold blend. rewrite !decide_False by done.
    destruct (difference_pixel_inv _ _ _ _ _ Hp) as [Hx Hy].
    rewrite pixel_at_chop.
    unfold Image_new, img_size in Hp. rewrite Hp.
    pose proof (pixel_at_Image_new (mode img)
                  (Z.min (width img) (width img))
                  (Z.min (height img) (height img)) (m, m, m) x y) as Hdeg.
    unfold Image_new in Hdeg. rewrite Hdeg by lia. reflexivity.
Qed.

(** C8, as the claim has it, fails: on the strip the box is not the one of
    the plain difference.  The difference is 0, 255 and 1 on the three
    pixels; its mean luminance is 85, so the enhancement takes the last
    pixel to 0, and the crop keeps the middle pixel alone. *)
Lemma crop_white_space_not_plain_difference :
  rgb_image Samples.strip /\
  getbbox (difference Samples.strip (Image_new "RGB" (3, 1) (0, 0, 0)))
    = Some (1, 0, 3, 1) /\
  crop_by_plain_difference Samples.strip =
    Ok (mkImage "RGB" 2 1 [[(255, 255, 255); (1, 1, 1)]]) /\
  (enhanced_difference Samples.strip ≫= fun d => Ok (getbbox d))
    = Ok (Some (1, 0, 2, 1)) /\
  Whatsapp.crop_white_space Samples.strip =
    Ok (mkImage "RGB" 1 1 [[(255, 255, 255)]]) /\
  Whatsapp.crop_white_space Samples.strip <>
    crop_by_plain_difference Samples.strip.
Proof.
  split_and!; try reflexivity; [|discriminate].
  apply (bool_decide_unpack _). vm_compute. exact I.
Qed.

(** * The trimming theorems at work on sample images *)

Lemma page_block_image w h block c :
  block_image (Samples.page w h block c) block c.
Proof.
  intros x y p (Hx & Hy & row & Hrow & Hp)%pixel_at_Some. cbn in Hrow.
  apply list_lookup_fmap_Some in Hrow as (y' & -> & Hy').
  apply lookup_seqZ in Hy' as [-> _].
  apply list_lookup_fmap_Some in Hp as (x' & -> & Hx').
  apply lookup_seqZ in Hx' as [-> _].
  by rewrite !Z.add_0_l, !Z2Nat.id by lia.
Qed.

Lemma page_rgb_image w h block c :
  0 <= w -> 0 <= h -> pixel_ok c ->
  rgb_image (Samples.page w h block c).
Proof.
  intros Hw Hh Hc. unfold rgb_image. cbn.
  split_and!; [done..|rewrite length_fmap, length_seqZ; lia|].
  apply Forall_fmap, Forall_forall. intros y _. cbn.
  split; [rewrite length_fmap, length_seqZ; lia|].
  apply Forall_fmap, Forall_forall. intros x _. cbn.
  case_decide; [done|apply white_ok].
Qed.

Lemma crop_white_space_uniform_witness :
  Whatsapp.crop_white_space (Toy.blank 3 2) = Ok (Toy.blank 3 2).
Proof.
  refine (proj1 (proj1 (crop_white_space_uniform (Toy.blank 3 2) _ _ _)
                   (255, 255, 255) _)).
  - apply (bool_decide_unpack _). vm_compute. exact I.
  - reflexivity.
  - reflexivity.
  - apply uniform_new.
Defined.

Lemma trim_white_space_padded_crop_witness :
  exists out,
    Report.trim_white_space (Samples.page 60 50 (20, 18, 30, 25) black)
      = Ok out /\
    region_of (Samples.page 60 50 (20, 18, 30, 25) black) (5, 3, 45, 40) out.
Proof.
  refine (proj2 (proj2 (trim_white_space_padded_crop
            (Samples.page 60 50 (20, 18, 30, 25) black) _)
            20 18 30 25 black _ _) _).
  - apply (bool_decide_unpack _). vm_compute. exact I.
  - unfold box_within. cbn [Samples.page width height]. lia.
  - apply page_block_image.
  - vm_compute. discriminate.
Defined.

Lemma crop_white_space_background_witness :
  exists c,
    pixel_at Samples.strip 0 0 = Some c /\
    background Samples.strip = Ok (Image_new "RGB" (3, 1) c).
Proof.
  destruct (crop_white_space_background Samples.strip) as (c & Hc & Hbg & _).
  - apply (bool_decide_unpack _). vm_compute. exact I.
  - reflexivity.
  - reflexivity.
  - exists c. split; [exact Hc|exact Hbg].
Defined.

Lemma trim_white_space_amplification_witness :
  pixel_at (amplified Samples.light_dot) 0 0 =
    Some (clip8 (1 * from_white 195 - 100), clip8 (1 * from_white 195 - 100),
          clip8 (1 * from_white 195 - 100)).
Proof.
  refine (proj1 (proj2 (trim_white_space_amplification Samples.light_dot
                          0 0 195 195 195 _ _))).
  - apply (bool_decide_unpack _). vm_compute. exact I.
  - reflexivity.
Defined.

(** A light grey mark in the corner of a page, 20 columns and 18 rows away
    from a black block, is not in what [trim_white_space] returns: the
    result is the block with its margin of 15. *)
Lemma trim_white_space_threshold_witness :
  pixel_at (Samples.marked_page 60 50 (20, 18, 30, 25) black (200, 200, 200))
    0 0 = Some (200, 200, 200) /\
  exists out,
    Report.trim_white_space
      (Samples.marked_page 60 50 (20, 18, 30, 25) black (200, 200, 200))
      = Ok out /\
    region_of
      (Samples.marked_page 60 50 (20, 18, 30, 25) black (200, 200, 200))
      (5, 3, 45, 40) out /\
    forall i j, is_Some (pixel_at out i j) ->
      5 <= 5 + i < 45 /\ 3 <= 3 + j < 40.
Proof.
  split; [reflexivity|].
  assert (Hwf : rgb_image (Samples.marked_page 60 50 (20, 18, 30, 25) black
                             (200, 200, 200))).
  { apply (bool_decide_unpack _). vm_compute. exact I. }
  destruct (trim_white_space_threshold _ Hwf)
    as (_ & _ & _ & Hbox & _ & Hcrop & _).
  apply (Hcrop 20 18 30 25), Hbox. vm_compute. reflexivity.
Defined.

(** The scenario of the specification: a 4000 x 3000 white page with a
    1000 x 500 black block at (1500, 1200).  The trimmed image is the region
    from (1485, 1185), 1030 wide and 530 high. *)
Example trim_white_space_scenario :
  exists out,
    Report.trim_white_space
      (Samples.page 4000 3000 (1500, 1200, 2500, 1700) black) = Ok out /\
    width out = 1030 /\ height out = 530 /\
    forall i j, 0 <= i < 1030 -> 0 <= j < 530 ->
      pixel_at out i j =
        pixel_at (Samples.page 4000 3000 (1500, 1200, 2500, 1700) black)
          (1485 + i) (1185 + j).
Proof.
  assert (Hwf : rgb_image
            (Samples.page 4000 3000 (1500, 1200, 2500, 1700) black)).
  { apply page_rgb_image; [lia..|]. unfold black, pixel_ok, chan_ok. lia. }
  destruct (trim_white_space_block _ 1500 1200 2500 1700 black Hwf)
    as (out & Hout & _ & Hw & Hh & Hpx).
  - unfold box_within, Samples.page. cbn [width height]. lia.
  - apply page_block_image.
  - reflexivity.
  - exists out. unfold Samples.page in Hw, Hh, Hpx. cbn [width height] in *.
    split; [done|]. split; [lia|]. split; [lia|].
    intros i j Hi Hj. rewrite Hpx by lia. f_equal; lia.
Qed.

(** * Further properties of the encoder *)

Section EncoderMore.

Variable save_jpeg : Image -> Z -> bytes.
Variable convert_rgb : Image -> Image.
Variable lanczos : Image -> Z -> Z -> Image.

Abbreviation over := (EncoderSpec.over save_jpeg).
Abbreviation round_image := (EncoderSpec.round_image lanczos).
Abbreviation round_attempts := (EncoderSpec.round_attempts lanczos).
Abbreviation normalized := (EncoderSpec.normalized convert_rgb).

(** *** Encoder calls of any run *)

Lemma ladder_log budget img qs data log log' r :
  ladder save_jpeg budget img qs data log = (log', r) ->
  exists k, (k <= length qs)%nat /\ (qs <> [] -> (1 <= k)%nat) /\
            log' = log ++ (Encode img <$> take k qs) /\
            exists f, r = Ok f.
Proof.
  destruct (ladder_cases save_jpeg budget img qs)
    as [Hall | (before & q & after & -> & Hover & Hq)].
  - rewrite ladder_miss by done. intros [= <- <-].
    exists (length qs). rewrite firstn_all. split_and!; [done| |done|eauto].
    destruct qs; [done|cbn; lia].
  - rewrite ladder_hit by done. intros [= <- <-].
    exists (S (length before)). rewrite length_app. cbn [length].
    split_and!; [lia|lia| |eauto].
    replace (before ++ q :: after) with ((before ++ [q]) ++ after)
      by (by rewrite <- app_assoc).
    rewrite take_app_length'; [done|]. rewrite length_app. cbn. lia.
Qed.

Lemma optimize_image_log budget img log r :
  run (optimize_image_with save_jpeg convert_rgb lanczos budget img) = (log, r) ->
  exists k m, (1 <= k <= 5)%nat /\ (m <= 3)%nat /\ (m = 0%nat \/ k = 5%nat) /\
    log = (Encode (normalized img) <$> take k JPEG_QUALITIES) ++
          round_attempts (normalized img) 1 m.
Proof.
  unfold run. rewrite optimize_image_with_unfold. cbn zeta.
  destruct (ladder _ _ _ _ _ _) as [log1 r1] eqn:Hladder.
  pose proof Hladder as (k & Hk & Hk1 & Hlog1 & f & ->)%ladder_log.
  cbn [app] in Hlog1. subst log1. specialize (Hk1 ltac:(done)).
  destruct f as [d|od].
  - intros [= <- _]. exists k, 0%nat. rewrite app_nil_r.
    split_and!; [lia|done|lia|by left|done].
  - destruct (ladder_cases save_jpeg budget (normalized img) JPEG_QUALITIES)
      as [Hall | (before & q & after & Hsplit & Hover & Hq)];
      [|by rewrite Hsplit, ladder_hit in Hladder].
    rewrite ladder_miss in Hladder by done. injection Hladder as Hlog _.
    change (width ?i) with (shrunk 0 (width i)) at 1.
    change (height ?i) with (shrunk 0 (height i)) at 1.
    destruct (downscale _ _ _ _ _ _ _ _ _) as [log2 r2] eqn:Hloop.
    apply (downscale_log save_jpeg lanczos budget (normalized img) 3 0
             (normalized img)) in Hloop as (m & Hm & ->); [|done].
    intros Hrun. exists 5%nat, m. rewrite <- Hlog in Hrun.
    split_and!; [lia|lia|done|by right|].
    destruct r2 as [[d|[d|]]|e]; by injection Hrun as <- _.
Qed.

(** X1.  Whatever the image and the budget, and whether it returns or
    raises, [optimize_image] calls the encoder at least once and at most 8
    times; the first call is on the normalised image at quality 95, and every
    call uses a quality of the ladder. *)
Theorem optimize_image_call_bound budget img log r :
  run (optimize_image_with save_jpeg convert_rgb lanczos budget img) = (log, r) ->
  (1 <= length log <= 8)%nat /\
  head log = Some (Encode (normalized img) 95) /\
  (forall im q, Encode im q ∈ log -> q ∈ JPEG_QUALITIES).
Proof.
  intros (k & m & Hk & Hm & _ & ->)%optimize_image_log.
  assert (Hrounds : forall n from, 
            (length (round_attempts (normalized img) from n) <= n)%nat /\
            forall im q, Encode im q ∈ round_attempts (normalized img) from n ->
                         q = 65).
  { induction n as [|n IH]; intros from; [split; [done|by intros ?? ?%elem_of_nil]|].
    unfold EncoderSpec.round_attempts. cbn [seq flat_map].
    destruct (IH (S from)) as [IHlen IHq].
    split.
    - rewrite length_app.
      destruct (EncoderSpec.round_image _ _ _); cbn [length];
        unfold EncoderSpec.round_attempts in IHlen; lia.
    - intros im q [Hin|Hin]%elem_of_app; [|by eapply IHq].
      destruct (EncoderSpec.round_image _ _ _); [|by apply elem_of_nil in Hin].
      apply list_elem_of_singleton in Hin. by injection Hin. }
  destruct (Hrounds m 1%nat) as [Hlen Hq].
  split_and!.
  - rewrite length_app, length_fmap, length_take. cbn [JPEG_QUALITIES length]. lia.
  - rewrite length_app, length_fmap, length_take. cbn [JPEG_QUALITIES length]. lia.
  - destruct k as [|k]; [lia|]. reflexivity.
  - intros im q [Hin|Hin]%elem_of_app.
    + apply list_elem_of_fmap in Hin as (q' & [= -> ->] & Hin).
      by eapply subseteq_take.
    + rewrite (Hq _ _ Hin). by apply (list_elem_of_lookup_2 _ 3%nat).
Qed.

(** X4.  An image of width 1 or of height 1 whose rungs are all over budget
    gets no buffer: after the 5 calls of the ladder the first resize asks
    for a size without pixels and [ValueError] is raised. *)
Theorem optimize_image_thin_image_raises budget img :
  Forall (over budget (normalized img)) JPEG_QUALITIES ->
  width (normalized img) = 1 \/ height (normalized img) = 1 ->
  run (optimize_image_with save_jpeg convert_rgb lanczos budget img) =
    (Encode (normalized img) <$> JPEG_QUALITIES, Raise ValueError).
Proof.
  intros Hall Hthin. unfold run. rewrite optimize_image_with_unfold. cbn zeta.
  rewrite ladder_miss by done. rewrite downscale_step. unfold resize, img_size.
  assert (int_mul_096 1 = 0) as H1 by reflexivity.
  rewrite decide_False.
  - rewrite decide_True; [done|]. destruct Hthin as [->| ->]; rewrite H1; lia.
  - intros [= Hw Hh]. destruct Hthin as [Hthin|Hthin];
      rewrite Hthin, H1 in *; lia.
Qed.

Lemma split_not_before {A} (before before' after after' : list A) q q' :
  before ++ q :: after = before' ++ q' :: after' ->
  q ∉ before' ->
  (length before' <= length before)%nat /\ q ∈ q' :: after'.
Proof.
  revert before. induction before' as [|x before' IH];
    intros before Hsplit Hnot.
  - split; [cbn; lia|]. cbn in Hsplit. rewrite <- Hsplit.
    apply elem_of_app. right. by left.
  - destruct before as [|y before]; cbn in Hsplit.
    + injection Hsplit as -> _. destruct Hnot. by left.
    + injection Hsplit as -> Hsplit.
      destruct (IH before Hsplit) as [Hlen Hin].
      * intros Hin. apply Hnot. by right.
      * split; [cbn; lia|done].
Qed.

(** The ladder is in descending order: what follows a rung is lower. *)
Lemma ladder_descending before q after q' :
  JPEG_QUALITIES = before ++ q :: after -> q' ∈ after -> q' < q.
Proof.
  unfold JPEG_QUALITIES. intros Hsplit Hin.
  do 6 (destruct before as [|? before]; simplify_eq/=;
        try (set_unfold; lia)).
Qed.

(** X5.  A larger budget never lowers the quality: if with budget [b] the
    ladder stops at rung [q], then with any budget [b' >= b] it stops at a
    rung [q' >= q], after no more encoder calls. *)
Theorem optimize_image_budget_monotone b b' img before q after :
  b <= b' ->
  JPEG_QUALITIES = before ++ q :: after ->
  Forall (over b (normalized img)) before ->
  len (save_jpeg (normalized img) q) <= b ->
  exists before' q' after',
    JPEG_QUALITIES = before' ++ q' :: after' /\
    q <= q' /\ (length before' <= length before)%nat /\
    run (optimize_image_with save_jpeg convert_rgb lanczos b' img) =
      (Encode (normalized img) <$> before' ++ [q'],
       Ok (save_jpeg (normalized img) q')).
Proof.
  intros Hb Hsplit Hover Hq.
  destruct (ladder_cases save_jpeg b' (normalized img) JPEG_QUALITIES)
    as [Hall | (before' & q' & after' & Hsplit' & Hover' & Hq')].
  - rewrite Forall_forall in Hall.
    assert (Hin : q ∈ JPEG_QUALITIES).
    { rewrite Hsplit. apply elem_of_app. right. by left. }
    apply Hall in Hin. unfold EncoderSpec.over in Hin. lia.
  - exists before', q', after'.
    assert (Hnot : q ∉ before').
    { intros Hin. rewrite Forall_forall in Hover'. apply Hover' in Hin.
      unfold EncoderSpec.over in Hin. lia. }
    destruct (split_not_before before before' after after' q q') as [Hlen Hin];
      [congruence|done|].
    split_and!; [done| |done|].
    + apply elem_of_cons in Hin as [->|Hin]; [lia|].
      pose proof (ladder_descending _ _ _ _ Hsplit' Hin). lia.
    + unfold run. rewrite optimize_image_with_unfold. cbn zeta.
      by rewrite Hsplit', ladder_hit.
Qed.

(** X6.  The downscale rounds cannot take much away: after the three rounds
    a dimension [w] is still at least [0.884736 w - 2.8816] and at most
    [0.884736 w] pixels, and each round makes a positive dimension strictly
    smaller. *)
Theorem shrunk_three_rounds w :
  0 <= w ->
  884736 * w - 2881600 <= 1000000 * shrunk 3 w <= 884736 * w /\
  (0 < w -> int_mul_096 w < w) /\
  0 <= int_mul_096 w.
Proof.
  intros Hw.
  change (shrunk 3 w) with (int_mul_096 (int_mul_096 (int_mul_096 w))).
  pose proof (int_mul_096_bounds w Hw) as H1.
  pose proof (int_mul_096_bounds (int_mul_096 w) ltac:(lia)) as H2.
  pose proof (int_mul_096_bounds (int_mul_096 (int_mul_096 w)) ltac:(lia)) as H3.
  lia.
Qed.

End EncoderMore.

Lemma optimize_image_call_bound_witness :
  exists log r,
    run (optimize_image_with Toy.save_jpeg Toy.convert_rgb Toy.lanczos 4200
           (Toy.blank 10 10)) = (log, r) /\
    (1 <= length log <= 8)%nat /\
    head log = Some (Encode (normalized Toy.convert_rgb (Toy.blank 10 10)) 95).
Proof.
  eexists _, _. split; [vm_compute; reflexivity|].
  split; [|reflexivity].
  refine (proj1 (optimize_image_call_bound Toy.save_jpeg Toy.convert_rgb
                   Toy.lanczos 4200 (Toy.blank 10 10) _ _ _)).
  vm_compute. reflexivity.
Defined.

Lemma optimize_image_thin_image_raises_witness :
  run (optimize_image_with Toy.save_jpeg Toy.convert_rgb Toy.lanczos 10
         (Toy.blank 1 7)) =
    (Encode (normalized Toy.convert_rgb (Toy.blank 1 7)) <$> JPEG_QUALITIES,
     Raise ValueError).
Proof.
  apply (optimize_image_thin_image_raises Toy.save_jpeg Toy.convert_rgb
           Toy.lanczos 10 (Toy.blank 1 7)).
  - repeat constructor.
  - left. reflexivity.
Defined.

Lemma optimize_image_budget_monotone_witness :
  exists before' q' after',
    JPEG_QUALITIES = before' ++ q' :: after' /\
    75 <= q' /\ (length before' <= 2)%nat /\
    run (optimize_image_with Toy.save_jpeg Toy.convert_rgb Toy.lanczos 9000
           (Toy.blank 10 10)) =
      (Encode (normalized Toy.convert_rgb (Toy.blank 10 10))
         <$> before' ++ [q'],
       Ok (Toy.save_jpeg (normalized Toy.convert_rgb (Toy.blank 10 10)) q')).
Proof.
  apply (optimize_image_budget_monotone Toy.save_jpeg Toy.convert_rgb
           Toy.lanczos 7500 9000 (Toy.blank 10 10) [95; 85] 75 [65; 55]).
  - lia.
  - reflexivity.
  - repeat constructor.
  - vm_compute. discriminate.
Defined.

Lemma shrunk_three_rounds_witness :
  884736 * 4000 - 2881600 <= 1000000 * shrunk 3 4000 <= 884736 * 4000 /\
  (0 < 4000 -> int_mul_096 4000 < 4000) /\
  0 <= int_mul_096 4000.
Proof. apply (shrunk_three_rounds 4000). lia. Defined.

(** * [optimize_image] when the encoder can raise *)

Section FallibleFacts.

Variable save_jpeg : Image -> Z -> result bytes.
Variable convert_rgb : Image -> Image.
Variable lanczos : Image -> Z -> Z -> Image.

Abbreviation normalized := (EncoderSpec.normalized convert_rgb).
Abbreviation over := (FallibleSpec.over save_jpeg).
Abbreviation encoder_raised := (FallibleSpec.encoder_raised save_jpeg).
Abbreviation encoder_returned := (FallibleSpec.encoder_returned save_jpeg).

(** *** One turn of each loop *)

Lemma fallible_ladder_step budget img q qs data log :
  Fallible.ladder save_jpeg budget img (q :: qs) data log =
    match save_jpeg img q with
    | Ok d =>
        if decide (len d <= budget)
        then (log ++ [Encode img q], Ok (Return d))
        else Fallible.ladder save_jpeg budget img qs (Some d)
               (log ++ [Encode img q])
    | Raise e => (log ++ [Encode img q], Raise e)
    end.
Proof.
  cbn. unfold mbind, Enc_bind, Fallible.jpg_bytes.
  destruct (save_jpeg img q) as [d|e]; [|reflexivity].
  destruct (decide _); reflexivity.
Qed.

Lemma fallible_downscale_step budget n w h img data log :
  Fallible.downscale save_jpeg lanczos budget (S n) w h img data log =
    match resize lanczos img (int_mul_096 w, int_mul_096 h) with
    | Raise e => (log, Raise e)
    | Ok im =>
        match save_jpeg im 65 with
        | Ok d =>
            if decide (len d <= budget)
            then (log ++ [Encode im 65], Ok (Return d))
            else Fallible.downscale save_jpeg lanczos budget n (int_mul_096 w)
                   (int_mul_096 h) im (Some d) (log ++ [Encode im 65])
        | Raise e => (log ++ [Encode im 65], Raise e)
        end
    end.
Proof.
  cbn [Fallible.downscale]. unfold mbind, Enc_bind, lift, Fallible.jpg_bytes.
  destruct (resize lanczos img _) as [im|e]; [|reflexivity].
  destruct (save_jpeg im 65) as [d|e]; [|reflexivity].
  destruct (decide _); reflexivity.
Qed.

Lemma fallible_optimize_image_unfold budget img log :
  Fallible.optimize_image_with save_jpeg convert_rgb lanczos budget img log =
    let rgb := normalized img in
    match Fallible.ladder save_jpeg budget rgb JPEG_QUALITIES None log with
    | (log1, Ok (Return d)) => (log1, Ok d)
    | (log1, Ok (Fallthrough od)) =>
        match Fallible.downscale save_jpeg lanczos budget 3 (width rgb)
                (height rgb) rgb od log1 with
        | (log2, Ok (Return d)) => (log2, Ok d)
        | (log2, Ok (Fallthrough (Some d))) => (log2, Ok d)
        | (log2, Ok (Fallthrough None)) => (log2, Raise UnboundLocalError)
        | (log2, Raise e) => (log2, Raise e)
        end
    | (log1, Raise e) => (log1, Raise e)
    end.
Proof.
  unfold Fallible.optimize_image_with, EncoderSpec.normalized, mbind, Enc_bind.
  cbn zeta.
  destruct (Fallible.ladder _ _ _ _ _ _) as [log1 [[d|od]|e]]; try reflexivity.
  cbn [img_size].
  destruct (Fallible.downscale _ _ _ _ _ _ _ _ _) as [log2 [[d|[d|]]|e]];
    reflexivity.
Qed.

(** *** What a run of each loop has been through *)

Lemma encoder_returned_snoc log img q d :
  save_jpeg img q = Ok d -> encoder_returned (log ++ [Encode img q]) d.
Proof. intros Hsave. exists img, q. by rewrite last_snoc. Qed.

Lemma fallible_ladder_run budget img qs : forall data log log' r,
  Fallible.ladder save_jpeg budget img qs data log = (log', r) ->
  match r with
  | Raise e => encoder_raised log' e
  | Ok (Return d) => encoder_returned log' d /\ len d <= budget
  | Ok (Fallthrough od) =>
      Forall (over budget img) qs /\
      (qs = [] -> od = data /\ log' = log) /\
      (qs <> [] ->
       exists d, od = Some d /\ encoder_returned log' d /\ budget < len d)
  end.
Proof.
  induction qs as [|q qs IH]; intros data log log' r Hrun.
  - cbn in Hrun. injection Hrun as <- <-. by split_and!.
  - rewrite fallible_ladder_step in Hrun.
    destruct (save_jpeg img q) as [d|e] eqn:Hsave.
    + destruct (decide (len d <= budget)) as [Hfit|Hbig].
      * injection Hrun as <- <-. split; [by apply encoder_returned_snoc|done].
      * apply IH in Hrun. destruct r as [[d'|od]|e]; [done| |done].
        destruct Hrun as (Hall & Hnil & Hcons). split_and!; [|done|].
        -- constructor; [|done]. exists d. split; [done|lia].
        -- intros _. destruct qs as [|q' qs]; [|by apply Hcons].
           destruct Hnil as [-> ->]; [done|]. exists d.
           split_and!; [done|by apply encoder_returned_snoc|lia].
    + injection Hrun as <- <-. exists img, q. by rewrite last_snoc.
Qed.

Lemma resize_raises img w h e :
  resize lanczos img (w, h) = Raise e -> e = ValueError /\ (w < 1 \/ h < 1).
Proof. unfold resize. repeat case_decide; by intros [=]. Qed.

Lemma fallible_downscale_run budget n : forall w h img data log log' r,
  (n <= 3)%nat ->
  Fallible.downscale save_jpeg lanczos budget n w h img data log = (log', r) ->
  match r with
  | Raise e =>
      encoder_raised log' e \/
      (e = ValueError /\ (w <= Z.of_nat n \/ h <= Z.of_nat n))
  | Ok (Return d) => encoder_returned log' d /\ len d <= budget
  | Ok (Fallthrough od) =>
      (n = 0%nat -> od = data /\ log' = log) /\
      (n <> 0%nat ->
       exists d, od = Some d /\ encoder_returned log' d /\ budget < len d)
  end.
Proof.
  induction n as [|n IH]; intros w h img data log log' r Hn Hrun.
  - cbn in Hrun. injection Hrun as <- <-. by split.
  - rewrite fallible_downscale_step in Hrun.
    assert (Hroom : forall k v, (k <= n)%nat -> int_mul_096 v <= Z.of_nat k ->
                                v <= Z.of_nat (S k)).
    { intros k v Hk Hv. destruct (decide (Z.of_nat k + 1 < v)) as [Hlt|]; [|lia].
      pose proof (int_mul_096_room k v ltac:(lia) Hlt). lia. }
    destruct (resize lanczos img _) as [im|e] eqn:Hresize.
    + destruct (save_jpeg im 65) as [d|e] eqn:Hsave.
      * destruct (decide (len d <= budget)) as [Hfit|Hbig].
        -- injection Hrun as <- <-.
           split; [by apply encoder_returned_snoc|done].
        -- apply IH in Hrun; [|lia]. destruct r as [[d'|od]|e]; [done| |].
           ++ destruct Hrun as [Hnil Hcons]. split; [done|]. intros _.
              destruct n as [|n]; [|by apply Hcons].
              destruct Hnil as [-> ->]; [done|]. exists d.
              split_and!; [done|by apply encoder_returned_snoc|lia].
           ++ destruct Hrun as [Henc|(-> & Hsmall)]; [by left|]. right.
              split; [done|].
              destruct Hsmall as [Hw|Hh];
                [left|right]; by apply (Hroom n).
      * injection Hrun as <- <-. left. exists im, 65. by rewrite last_snoc.
    + injection Hrun as <- <-. right.
      apply resize_raises in Hresize as [-> Hsmall]. split; [done|].
      destruct Hsmall as [Hw|Hh]; [left|right].
      * pose proof (Hroom 0%nat w ltac:(lia) ltac:(lia)). lia.
      * pose proof (Hroom 0%nat h ltac:(lia) ltac:(lia)). lia.
Qed.

(** *** Images the encoder can write *)

Lemma fallible_ladder_total budget img qs : forall data log,
  FallibleSpec.writes_all save_jpeg -> FallibleSpec.writable img ->
  exists log' f,
    Fallible.ladder save_jpeg budget img qs data log = (log', Ok f).
Proof.
  induction qs as [|q qs IH]; intros data log Hsave Himg.
  - cbn. eauto.
  - rewrite fallible_ladder_step. destruct (Hsave img q Himg) as [d ->].
    case_decide; [eauto|]. by apply IH.
Qed.

Lemma fallible_downscale_total budget n : forall w h img data log,
  (n <= 3)%nat ->
  FallibleSpec.writes_all save_jpeg -> FallibleSpec.resamples lanczos ->
  mode img = "RGB" ->
  Z.of_nat n < w <= 65500 -> Z.of_nat n < h <= 65500 ->
  exists log' f,
    Fallible.downscale save_jpeg lanczos budget n w h img data log =
      (log', Ok f).
Proof.
  induction n as [|n IH]; intros w h img data log Hn Hsave Hres Hmode Hw Hh.
  - cbn. eauto.
  - rewrite fallible_downscale_step.
    pose proof (int_mul_096_room n w ltac:(lia) ltac:(lia)) as Hw'.
    pose proof (int_mul_096_room n h ltac:(lia) ltac:(lia)) as Hh'.
    pose proof (int_mul_096_bounds w ltac:(lia)) as Hwb.
    pose proof (int_mul_096_bounds h ltac:(lia)) as Hhb.
    assert (exists im,
              resize lanczos img (int_mul_096 w, int_mul_096 h) = Ok im /\
              FallibleSpec.writable im) as (im & -> & Hwritable).
    { unfold resize. destruct (decide (img_size img = _)) as [Hsame|Hdiff].
      - exists img. split; [done|]. unfold img_size in Hsame.
        injection Hsame as Hsw Hsh. split; [done|lia].
      - rewrite decide_False by lia. eexists. split; [done|].
        destruct (Hres img (int_mul_096 w) (int_mul_096 h)) as [Hm Hsz].
        unfold img_size in Hsz. injection Hsz as Hsw Hsh.
        split; [by rewrite Hm|lia]. }
    destruct (Hsave im 65 Hwritable) as [d ->].
    case_decide; [eauto|].
    apply IH; [lia|done|done|by destruct Hwritable|lia|lia].
Qed.

Lemma normalized_writable img :
  FallibleSpec.converts convert_rgb ->
  1 <= width img <= 65500 -> 1 <= height img <= 65500 ->
  FallibleSpec.writable (normalized img) /\
  img_size (normalized img) = img_size img.
Proof.
  intros Hconv Hw Hh. unfold EncoderSpec.normalized.
  destruct (decide (mode img ≠ "RGB")) as [Hne|Heq].
  - destruct (Hconv img) as [Hmode Hsize]. split; [|done].
    unfold img_size in Hsize. injection Hsize as Hsw Hsh.
    split; [done|lia].
  - apply dec_stable in Heq. by split.
Qed.

(** X2.  With an encoder that writes every RGB image whose sides are from 1
    to 65500 pixels, a conversion that keeps the size and a resampling that
    gives the size asked for, [optimize_image] raises nothing on an image
    whose sides are from 4 to 65500 pixels: for every budget the run ends
    with a buffer, the one the encoder returned on the call made last. *)
Theorem optimize_image_returns_in_range budget img :
  FallibleSpec.writes_all save_jpeg ->
  FallibleSpec.converts convert_rgb ->
  FallibleSpec.resamples lanczos ->
  4 <= width img <= 65500 -> 4 <= height img <= 65500 ->
  exists log data,
    run (Fallible.optimize_image_with save_jpeg convert_rgb lanczos budget img)
      = (log, Ok data) /\
    encoder_returned log data.
Proof.
  intros Hsave Hconv Hres Hw Hh. unfold run.
  rewrite fallible_optimize_image_unfold. cbn zeta.
  destruct (normalized_writable img Hconv ltac:(lia) ltac:(lia))
    as [Hwritable Hsize].
  unfold img_size in Hsize. injection Hsize as Hsw Hsh.
  destruct (fallible_ladder_total budget (normalized img) JPEG_QUALITIES None []
              Hsave Hwritable) as (log1 & f1 & Hladder).
  rewrite Hladder. apply fallible_ladder_run in Hladder.
  destruct f1 as [d|od]; [destruct Hladder; eauto|].
  destruct Hladder as (_ & _ & Hsome).
  destruct Hsome as (d0 & -> & _); [done|].
  destruct (fallible_downscale_total budget 3 (width (normalized img))
              (height (normalized img)) (normalized img) (Some d0) log1)
    as (log2 & f2 & Hloop);
    [lia|done|done|by destruct Hwritable|lia|lia|].
  rewrite Hloop. apply fallible_downscale_run in Hloop; [|lia].
  destruct f2 as [d|od]; [destruct Hloop; eauto|].
  destruct Hloop as [_ Hsome]. destruct Hsome as (d & -> & Hlast & _); [done|].
  eauto.
Qed.

(** X3.  Whatever [optimize_image] raises has one of two origins.  Either
    the encoder raised it, on the call the run made last; or it is the
    [ValueError] of a resize to a size without pixels, which takes an image
    less than 4 pixels wide or high, after every rung of the ladder gave a
    buffer over budget. *)
Theorem optimize_image_raise_origin budget img log e :
  run (Fallible.optimize_image_with save_jpeg convert_rgb lanczos budget img)
    = (log, Raise e) ->
  encoder_raised log e \/
  (e = ValueError /\
   Forall (over budget (normalized img)) JPEG_QUALITIES /\
   (width (normalized img) < 4 \/ height (normalized img) < 4)).
Proof.
  unfold run. rewrite fallible_optimize_image_unfold. cbn zeta.
  destruct (Fallible.ladder _ _ _ _ _ _) as [log1 r1] eqn:Hladder.
  apply fallible_ladder_run in Hladder.
  destruct r1 as [[d|od]|e1].
  - done.
  - destruct Hladder as (Hall & _ & Hsome).
    destruct Hsome as (d0 & -> & _); [done|].
    destruct (Fallible.downscale _ _ _ _ _ _ _ _ _) as [log2 r2] eqn:Hloop.
    apply fallible_downscale_run in Hloop; [|lia].
    destruct r2 as [[d|[d|]]|e2]; [done|done| |].
    + destruct Hloop as [_ Hsome]. by destruct Hsome as (d & [=] & _).
    + intros [= <- <-]. destruct Hloop as [Henc|(-> & Hsmall)]; [by left|].
      right. split_and!; [done|done|]. cbn in Hsmall. lia.
  - intros [= <- <-]. by left.
Qed.

End FallibleFacts.

(** *** The encoder that never raises *)

Lemma fallible_ladder_unfailing save_jpeg budget img qs : forall data log,
  Fallible.ladder (FallibleSpec.unfailing save_jpeg) budget img qs data log =
    ladder save_jpeg budget img qs data log.
Proof.
  induction qs as [|q qs IH]; intros data log; [reflexivity|].
  rewrite fallible_ladder_step, ladder_step. unfold FallibleSpec.unfailing.
  case_decide; [reflexivity|apply IH].
Qed.

Lemma fallible_downscale_unfailing save_jpeg lanczos budget n :
  forall w h img data log,
  Fallible.downscale (FallibleSpec.unfailing save_jpeg) lanczos budget n w h
    img data log =
    downscale save_jpeg lanczos budget n w h img data log.
Proof.
  induction n as [|n IH]; intros w h img data log; [reflexivity|].
  rewrite fallible_downscale_step, downscale_step.
  destruct (resize lanczos img _) as [im|e]; [|reflexivity].
  unfold FallibleSpec.unfailing. case_decide; [reflexivity|apply IH].
Qed.

(** Over an encoder that returns a buffer for every image, the run is the
    one of [Whatsapp.optimize_image_with]. *)
Lemma fallible_optimize_image_unfailing save_jpeg convert_rgb lanczos budget
    img log :
  Fallible.optimize_image_with (FallibleSpec.unfailing save_jpeg) convert_rgb
    lanczos budget img log =
    optimize_image_with save_jpeg convert_rgb lanczos budget img log.
Proof.
  rewrite fallible_optimize_image_unfold, optimize_image_with_unfold. cbn zeta.
  rewrite fallible_ladder_unfailing.
  destruct (ladder _ _ _ _ _ _) as [log1 [[d|od]|e]]; [reflexivity| |reflexivity].
  by rewrite fallible_downscale_unfailing.
Qed.

(** *** The toy encoder with the checks of [img.save] *)

Lemma toy_writes_all : FallibleSpec.writes_all FallibleSpec.toy_save_jpeg.
Proof.
  intros img q (_ & Hw & Hh). unfold FallibleSpec.toy_save_jpeg.
  rewrite !decide_False by lia. eauto.
Qed.

Lemma toy_converts : FallibleSpec.converts Toy.convert_rgb.
Proof. intros img. by split. Qed.

Lemma toy_resamples : FallibleSpec.resamples Toy.lanczos.
Proof. intros img w h. by split. Qed.

Lemma optimize_image_returns_in_range_witness :
  exists log data,
    run (Fallible.optimize_image_with FallibleSpec.toy_save_jpeg
           Toy.convert_rgb Toy.lanczos 0 (Toy.blank 4 4)) = (log, Ok data) /\
    FallibleSpec.encoder_returned FallibleSpec.toy_save_jpeg log data.
Proof.
  apply (optimize_image_returns_in_range FallibleSpec.toy_save_jpeg
           Toy.convert_rgb Toy.lanczos 0 (Toy.blank 4 4)).
  - apply toy_writes_all.
  - apply toy_converts.
  - apply toy_resamples.
  - cbn. lia.
  - cbn. lia.
Defined.

Lemma optimize_image_raise_origin_witness :
  FallibleSpec.encoder_raised FallibleSpec.toy_save_jpeg
    [Encode (Toy.blank 65501 1) 95] OSError \/
  (OSError = ValueError /\
   Forall (FallibleSpec.over FallibleSpec.toy_save_jpeg 10
             (EncoderSpec.normalized Toy.convert_rgb (Toy.blank 65501 1)))
     JPEG_QUALITIES /\
   (width (EncoderSpec.normalized Toy.convert_rgb (Toy.blank 65501 1)) < 4 \/
    height (EncoderSpec.normalized Toy.convert_rgb (Toy.blank 65501 1)) < 4)).
Proof.
  apply (optimize_image_raise_origin FallibleSpec.toy_save_jpeg
           Toy.convert_rgb Toy.lanczos 10 (Toy.blank 65501 1)).
  reflexivity.
Defined.

(** An image without pixels and an image too wide for a JPEG file: the
    encoder raises on the first call, and so does [optimize_image]. *)
Example optimize_image_empty_image :
  run (Fallible.optimize_image_with FallibleSpec.toy_save_jpeg Toy.convert_rgb
         Toy.lanczos TARGET_SIZE_BYTES (Toy.blank 0 5)) =
    ([Encode (Toy.blank 0 5) 95], Raise ValueError).
Proof. reflexivity. Qed.

Example optimize_image_wide_image :
  run (Fallible.optimize_image_with FallibleSpec.toy_save_jpeg Toy.convert_rgb
         Toy.lanczos TARGET_SIZE_BYTES (Toy.blank 65501 4)) =
    ([Encode (Toy.blank 65501 4) 95], Raise OSError).
Proof. reflexivity. Qed.

(** A thin image that the encoder writes: the [ValueError] is the one of the
    resize, after the five rungs and two rounds. *)
Example optimize_image_thin_image :
  run (Fallible.optimize_image_with FallibleSpec.toy_save_jpeg Toy.convert_rgb
         Toy.lanczos 0 (Toy.blank 3 9)) =
    ((Encode (Toy.blank 3 9) <$> JPEG_QUALITIES) ++
     [Encode (Toy.lanczos (Toy.blank 3 9) 2 8) 65;
      Encode (Toy.lanczos (Toy.lanczos (Toy.blank 3 9) 2 8) 1 7) 65],
     Raise ValueError).
Proof. reflexivity. Qed.

(** * Further properties of the trimming routines *)

Lemma region_of_self img :
  region_of img (0, 0, width img, height img) img.
Proof.
  unfold region_of. split_and!; [done|lia|lia|].
  intros i j _ _. by rewrite !Z.add_0_l.
Qed.

(** The dark pixels are within the box that [getbbox] finds. *)
Lemma amplified_box_dark img x0 y0 x1 y1 x y p :
  rgb_image img ->
  getbbox (amplified img) = Some (x0, y0, x1, y1) ->
  pixel_at img x y = Some p -> dark p = true ->
  x0 <= x < x1 /\ y0 <= y < y1.
Proof.
  intros Hwf Hbox Hp Hdark.
  apply getbbox_Some in Hbox as [Hin _]; [|by apply rgb_image_amplified].
  apply Hin, amplified_nonzero; eauto.
Qed.

Lemma amplified_box_within img x0 y0 x1 y1 :
  rgb_image img ->
  getbbox (amplified img) = Some (x0, y0, x1, y1) ->
  0 <= x0 < x1 /\ x1 <= width img /\ 0 <= y0 < y1 /\ y1 <= height img.
Proof.
  intros Hwf Hbox.
  pose proof (tight_bbox_within _ _ (rgb_image_amplified _ Hwf)
                (getbbox_Some _ _ (rgb_image_amplified _ Hwf) Hbox)) as Hin.
  unfold box_within in Hin.
  change (width (amplified img)) with
    (Z.min (Z.min (width img) (width img)) (Z.min (width img) (width img)))
    in Hin.
  change (height (amplified img)) with
    (Z.min (Z.min (height img) (height img)) (Z.min (height img) (height img)))
    in Hin.
  lia.
Qed.

(** X7.  [trim_white_space] raises nothing and returns a region of its
    input, pixels unchanged.  No dark pixel (a pixel with a channel more than
    100 away from white) is cut off: each one lies in the region, with a
    margin of 15 pixels on every side or up to the edge of the image. *)
Theorem trim_white_space_keeps_dark img :
  rgb_image img ->
  exists out x0 y0 x1 y1,
    Report.trim_white_space img = Ok out /\
    (0 <= x0 <= x1 /\ x1 <= width img /\ 0 <= y0 <= y1 /\ y1 <= height img) /\
    region_of img (x0, y0, x1, y1) out /\
    forall x y p,
      pixel_at img x y = Some p -> dark p = true ->
      x0 <= Z.max 0 (x - 15) /\ Z.min (width img) (x + 16) <= x1 /\
      y0 <= Z.max 0 (y - 15) /\ Z.min (height img) (y + 16) <= y1.
Proof.
  intros Hwf. pose proof Hwf as (_ & Hw & Hh & _).
  destruct (getbbox (amplified img)) as [[[[x0 y0] x1] y1]|] eqn:Hbox.
  - destruct (trim_white_space_found _ _ _ _ _ Hwf Hbox)
      as (out & Hout & _ & Hregion).
    pose proof (amplified_box_within _ _ _ _ _ Hwf Hbox) as Hin.
    exists out, (Z.max 0 (x0 - 15)), (Z.max 0 (y0 - 15)),
      (Z.min (width img) (x1 + 15)), (Z.min (height img) (y1 + 15)).
    split_and!; [done|lia..|done|].
    intros x y p Hp Hdark.
    pose proof (amplified_box_dark _ _ _ _ _ _ _ _ Hwf Hbox Hp Hdark). lia.
  - exists img, 0, 0, (width img), (height img).
    rewrite trim_white_space_unfold, Hbox.
    split_and!; [done|lia..|apply region_of_self|].
    intros x y p Hp Hdark. rewrite getbbox_None in Hbox.
    destruct (Hbox x y). apply amplified_nonzero; eauto.
Qed.

(** The dark pixels of a region are those of the image under it. *)
Lemma region_nonzero img x0 y0 x1 y1 out i j :
  rgb_image img -> rgb_image out ->
  0 <= x0 -> 0 <= y0 ->
  region_of img (x0, y0, x1, y1) out ->
  nonzero_at (amplified out) i j <->
  (0 <= i < x1 - x0 /\ 0 <= j < y1 - y0 /\
   nonzero_at (amplified img) (x0 + i) (y0 + j)).
Proof.
  intros Hwf Hout Hx0 Hy0 (_ & Hw & Hh & Hpx).
  rewrite !amplified_nonzero by done. split.
  - intros (p & Hp & Hdark).
    destruct (pixel_at_bounds _ _ _ _ Hout Hp) as [Hi Hj].
    rewrite Hw in Hi. rewrite Hh in Hj.
    split; [done|]. split; [done|]. exists p. by rewrite <- Hpx.
  - intros (Hi & Hj & p & Hp & Hdark). exists p. by rewrite Hpx.
Qed.

(** X8.  [trim_white_space] is idempotent: trimming what it returned gives
    the same image again. *)
Theorem trim_white_space_idempotent img out :
  rgb_image img ->
  Report.trim_white_space img = Ok out ->
  Report.trim_white_space out = Ok out.
Proof.
  intros Hwf Hout.
  destruct (getbbox (amplified img)) as [[[[x0 y0] x1] y1]|] eqn:Hbox.
  - pose proof (amplified_box_within _ _ _ _ _ Hwf Hbox) as Hin.
    destruct (trim_white_space_found _ _ _ _ _ Hwf Hbox)
      as (out' & Hout' & Hcrop & Hregion).
    rewrite Hout in Hout'. injection Hout' as <-. rewrite Hout in Hcrop.
    assert (Hwf' : rgb_image out) by (by eapply crop_rgb_image).
    pose proof Hregion as (_ & Hw & Hh & _).
    pose proof (getbbox_Some _ _ (rgb_image_amplified _ Hwf) Hbox)
      as (Hall & [ya Hxa] & [yb Hxb] & [xa Hya] & [xb Hyb]).
    pose proof (Hall _ _ Hxa) as Ha. pose proof (Hall _ _ Hxb) as Hb.
    pose proof (Hall _ _ Hya) as Hc. pose proof (Hall _ _ Hyb) as Hd.
    assert (Hbox' : getbbox (amplified out) =
      Some (x0 - Z.max 0 (x0 - 15), y0 - Z.max 0 (y0 - 15),
            x1 - Z.max 0 (x0 - 15), y1 - Z.max 0 (y0 - 15))).
    { assert (Hx0 : 0 <= Z.max 0 (x0 - 15)) by lia.
      assert (Hy0 : 0 <= Z.max 0 (y0 - 15)) by lia.
      pose proof (fun i j => region_nonzero img _ _ _ _ out i j Hwf Hwf'
                               Hx0 Hy0 Hregion) as Hreg.
      apply getbbox_tight; [by apply rgb_image_amplified|].
      unfold tight_bbox. split_and!.
      - intros i j (Hi & Hj & Hij)%Hreg. apply Hall in Hij. lia.
      - exists (ya - Z.max 0 (y0 - 15)).
        apply Hreg.
        split; [lia|]. split; [lia|].
        by replace (Z.max 0 (x0 - 15) + (x0 - Z.max 0 (x0 - 15))) with x0
          by lia;
          replace (Z.max 0 (y0 - 15) + (ya - Z.max 0 (y0 - 15))) with ya
          by lia.
      - exists (yb - Z.max 0 (y0 - 15)).
        apply Hreg.
        split; [lia|]. split; [lia|].
        by replace (Z.max 0 (x0 - 15) + (x1 - Z.max 0 (x0 - 15) - 1))
          with (x1 - 1) by lia;
          replace (Z.max 0 (y0 - 15) + (yb - Z.max 0 (y0 - 15))) with yb
          by lia.
      - exists (xa - Z.max 0 (x0 - 15)).
        apply Hreg.
        split; [lia|]. split; [lia|].
        by replace (Z.max 0 (x0 - 15) + (xa - Z.max 0 (x0 - 15))) with xa
          by lia;
          replace (Z.max 0 (y0 - 15) + (y0 - Z.max 0 (y0 - 15))) with y0
          by lia.
      - exists (xb - Z.max 0 (x0 - 15)).
        apply Hreg.
        split; [lia|]. split; [lia|].
        by replace (Z.max 0 (x0 - 15) + (xb - Z.max 0 (x0 - 15))) with xb
          by lia;
          replace (Z.max 0 (y0 - 15) + (y1 - Z.max 0 (y0 - 15) - 1))
          with (y1 - 1) by lia. }
    rewrite trim_white_space_unfold, Hbox'.
    replace (Z.max 0 (x0 - Z.max 0 (x0 - 15) - 15)) with 0 by lia.
    replace (Z.max 0 (y0 - Z.max 0 (y0 - 15) - 15)) with 0 by lia.
    replace (Z.min (width out) (x1 - Z.max 0 (x0 - 15) + 15))
      with (width out) by lia.
    replace (Z.min (height out) (y1 - Z.max 0 (y0 - 15) + 15))
      with (height out) by lia.
    by apply crop_full.
  - rewrite trim_white_space_unfold, Hbox in Hout. injection Hout as <-.
    by rewrite trim_white_space_unfold, Hbox.
Qed.

(** *** The threshold of [crop_white_space] *)

Lemma enhanced_difference_inv img d :
  enhanced_difference img = Ok d ->
  exists c m,
    getpixel img (0, 0) = Ok c /\
    mean_luminance (difference img (Image_new (mode img) (img_size img) c))
      = Ok m /\
    d = chop (blend_chan 3)
          (Image_new (mode img) (img_size img) (m, m, m))
          (difference img (Image_new (mode img) (img_size img) c)).
Proof.
  unfold enhanced_difference, background.
  destruct (getpixel img (0, 0)) as [c|e]; [|done]. cbn [mbind result_bind].
  unfold Contrast_enhance.
  destruct (mean_luminance _) as [m|e] eqn:Hmean; [|done].
  cbn [mbind result_bind].
  unfold blend. rewrite !decide_False by done. intros [= <-].
  exists c, m. split_and!; [done..|].
  f_equal. unfold img_size, difference, chop, Image_new. cbn.
  by rewrite !Z.min_id.
Qed.

Lemma enhanced_pixel img c m x y p :
  rgb_image img -> pixel_at img x y = Some p ->
  pixel_at
    (chop (blend_chan 3) (Image_new (mode img) (img_size img) (m, m, m))
       (difference img (Image_new (mode img) (img_size img) c))) x y =
  Some (map_chan (fun v => clip8 (m + 3 * (v - m)))
          (zip_chan (fun u v => Z.abs (u - v)) p c)).
Proof.
  intros Hwf Hp. destruct (pixel_at_bounds _ _ _ _ Hwf Hp) as [Hx Hy].
  rewrite pixel_at_chop, (difference_pixel _ _ _ _ _ Hwf Hp).
  unfold img_size. rewrite pixel_at_Image_new by done. cbn.
  by destruct p as [[r g] b], c as [[cr cg] cb].
Qed.

(** X9.  [crop_white_space] returns a region of its input, pixels unchanged.
    What it leaves out is close to the background: on every pixel outside
    the region each channel differs from the colour at (0, 0) by at most two
    thirds of [m], the rounded mean luminance of the difference image. *)
Theorem crop_white_space_threshold img :
  rgb_image img -> 0 < width img -> 0 < height img ->
  exists out cr cg cb m x0 y0 x1 y1,
    pixel_at img 0 0 = Some (cr, cg, cb) /\
    mean_luminance
      (difference img (Image_new (mode img) (img_size img) (cr, cg, cb)))
      = Ok m /\
    Whatsapp.crop_white_space img = Ok out /\
    (0 <= x0 <= x1 /\ x1 <= width img /\ 0 <= y0 <= y1 /\ y1 <= height img) /\
    region_of img (x0, y0, x1, y1) out /\
    forall x y r g b,
      pixel_at img x y = Some (r, g, b) ->
      ~ (x0 <= x < x1 /\ y0 <= y < y1) ->
      3 * Z.abs (r - cr) <= 2 * m /\ 3 * Z.abs (g - cg) <= 2 * m /\
      3 * Z.abs (b - cb) <= 2 * m.
Proof.
  intros Hwf Hw Hh.
  destruct (enhanced_difference_ok img) as (d & Hd & Hdwf & Hdw & Hdh);
    [done..|].
  pose proof Hd as (c & m & Hget & Hmean & Hchop)%enhanced_difference_inv.
  destruct (getpixel_origin img) as (c' & Hc & Hget'); [done..|].
  rewrite Hget in Hget'. injection Hget' as <-.
  destruct c as [[cr cg] cb].
  rewrite crop_white_space_unfold, Hd. cbn [mbind result_bind].
  destruct (getbbox d) as [[[[x0 y0] x1] y1]|] eqn:Hbox.
  - pose proof (getbbox_Some _ _ Hdwf Hbox) as Htight.
    pose proof (tight_bbox_within _ _ Hdwf Htight) as Hin.
    unfold box_within in Hin. destruct Htight as [Hall _].
    destruct (crop_region img x0 y0 x1 y1) as (out & Hout & Hregion);
      [done|lia..|].
    exists out, cr, cg, cb, m, x0, y0, x1, y1.
    split_and!; [done|done|done|lia..|done|].
    intros x y r g b Hp Hout'.
    pose proof (enhanced_pixel img (cr, cg, cb) m x y _ Hwf Hp) as Hq.
    rewrite <- Hchop in Hq. cbn in Hq.
    destruct (nonzero (clip8 (m + 3 * (Z.abs (r - cr) - m)),
                       clip8 (m + 3 * (Z.abs (g - cg) - m)),
                       clip8 (m + 3 * (Z.abs (b - cb) - m)))) eqn:Hnz.
    + destruct Hout'. apply Hall. eexists. split; [exact Hq|exact Hnz].
    + cbn in Hnz. apply negb_false_iff in Hnz.
      rewrite !andb_true_iff, !bool_decide_eq_true, !clip8_pos in Hnz. lia.
  - exists img, cr, cg, cb, m, 0, 0, (width img), (height img).
    split_and!; [done|done|done|lia..|apply region_of_self|].
    intros x y r g b Hp Hout.
    destruct (pixel_at_bounds _ _ _ _ Hwf Hp). lia.
Qed.

(** * The further trimming theorems on sample images *)

Lemma trim_white_space_keeps_dark_witness :
  exists out x0 y0 x1 y1,
    Report.trim_white_space (Samples.page 60 50 (20, 18, 30, 25) black)
      = Ok out /\
    (0 <= x0 <= x1 /\ x1 <= 60 /\ 0 <= y0 <= y1 /\ y1 <= 50) /\
    region_of (Samples.page 60 50 (20, 18, 30, 25) black) (x0, y0, x1, y1) out /\
    forall x y p,
      pixel_at (Samples.page 60 50 (20, 18, 30, 25) black) x y = Some p ->
      dark p = true ->
      x0 <= Z.max 0 (x - 15) /\ Z.min 60 (x + 16) <= x1 /\
      y0 <= Z.max 0 (y - 15) /\ Z.min 50 (y + 16) <= y1.
Proof.
  apply (trim_white_space_keeps_dark
           (Samples.page 60 50 (20, 18, 30, 25) black)).
  apply (bool_decide_unpack _). vm_compute. exact I.
Defined.

Lemma trim_white_space_idempotent_witness :
  exists out,
    Report.trim_white_space (Samples.page 60 50 (20, 18, 30, 25) black)
      = Ok out /\
    Report.trim_white_space out = Ok out.
Proof.
  eexists. split; [vm_compute; reflexivity|].
  apply (trim_white_space_idempotent
           (Samples.page 60 50 (20, 18, 30, 25) black)).
  - apply (bool_decide_unpack _). vm_compute. exact I.
  - vm_compute. reflexivity.
Defined.

Lemma crop_white_space_threshold_witness :
  exists out cr cg cb m x0 y0 x1 y1,
    pixel_at Samples.strip 0 0 = Some (cr, cg, cb) /\
    mean_luminance
      (difference Samples.strip (Image_new "RGB" (3, 1) (cr, cg, cb)))
      = Ok m /\
    Whatsapp.crop_white_space Samples.strip = Ok out /\
    (0 <= x0 <= x1 /\ x1 <= 3 /\ 0 <= y0 <= y1 /\ y1 <= 1) /\
    region_of Samples.strip (x0, y0, x1, y1) out /\
    forall x y r g b,
      pixel_at Samples.strip x y = Some (r, g, b) ->
      ~ (x0 <= x < x1 /\ y0 <= y < y1) ->
      3 * Z.abs (r - cr) <= 2 * m /\ 3 * Z.abs (g - cg) <= 2 * m /\
      3 * Z.abs (b - cb) <= 2 * m.
Proof.
  apply (crop_white_space_threshold Samples.strip).
  - apply (bool_decide_unpack _). vm_compute. exact I.
  - reflexivity.
  - reflexivity.
Defined.

(** * Properties of the scripts around the image routines *)

Import Py Net NotifySpec.

(** *** Stripping *)

Lemma lstrip_head s c : head (lstrip s) = Some c -> isspace c = false.
Proof.
  induction s as [|c' s IH]; [done|]. cbn.
  destruct (isspace c') eqn:Hc'; [done|]. by intros [= <-].
Qed.

Lemma rstrip_cons_nonspace c s :
  isspace c = false -> rstrip (c :: s) = c :: rstrip s.
Proof. intros Hc. cbn. rewrite Hc. by destruct (rstrip s). Qed.

Lemma rstrip_last s c : last (rstrip s) = Some c -> isspace c = false.
Proof.
  induction s as [|c' s IH]; [done|]. cbn.
  destruct (rstrip s) as [|c'' t] eqn:Ht.
  - destruct (isspace c') eqn:Hc'; [done|]. by intros [= <-].
  - intros Hlast. apply IH. by rewrite <- Hlast.
Qed.

Lemma strip_head s c : head (strip s) = Some c -> isspace c = false.
Proof.
  unfold strip. destruct (lstrip s) as [|c' t] eqn:Hs; [done|].
  assert (Hc' : isspace c' = false) by (apply (lstrip_head s); by rewrite Hs).
  rewrite rstrip_cons_nonspace by done. by intros [= <-].
Qed.

Lemma strip_last s c : last (strip s) = Some c -> isspace c = false.
Proof. apply rstrip_last. Qed.

Lemma lstrip_elem s c : c ∈ lstrip s -> c ∈ s.
Proof.
  induction s as [|c' s IH]; [done|]. cbn.
  destruct (isspace c'); [|done]. intros Hc. right. by apply IH.
Qed.

Lemma rstrip_elem s c : c ∈ rstrip s -> c ∈ s.
Proof.
  induction s as [|c' s IH]; [done|]. cbn.
  destruct (rstrip s) as [|c'' t].
  - destruct (isspace c'); [by intros ?%elem_of_nil|].
    intros ->%list_elem_of_singleton. by left.
  - intros [->|Hc]%elem_of_cons; [by left|]. right. by apply IH.
Qed.

Lemma strip_elem s c : c ∈ strip s -> c ∈ s.
Proof. intros Hc. by apply lstrip_elem, rstrip_elem. Qed.

Lemma lstrip_nil s : lstrip s = [] <-> Forall (fun c => isspace c = true) s.
Proof.
  induction s as [|c s IH]; [done|]. cbn. rewrite Forall_cons.
  destruct (isspace c); [|split; [done|by intros [? _]]].
  rewrite IH. tauto.
Qed.

Lemma rstrip_nil s : rstrip s = [] <-> Forall (fun c => isspace c = true) s.
Proof.
  induction s as [|c s IH]; [done|]. cbn. rewrite Forall_cons, <- IH.
  destruct (rstrip s); [|split; [done|by intros [_ ?]]].
  destruct (isspace c); split; try done; by intros [? _].
Qed.

Lemma lstrip_space s :
  Forall (fun c => isspace c = true) (lstrip s) ->
  Forall (fun c => isspace c = true) s.
Proof.
  induction s as [|c s IH]; [done|]. cbn.
  destruct (isspace c) eqn:Hc; [|done]. intros Hs. constructor; auto.
Qed.

(** Stripping leaves nothing exactly when there is nothing but space. *)
Lemma strip_nil s : strip s = [] <-> Forall (fun c => isspace c = true) s.
Proof.
  unfold strip. rewrite rstrip_nil. split; [apply lstrip_space|].
  intros Hs. by apply lstrip_nil in Hs as ->.
Qed.

(** *** Splitting *)

Lemma split_nonempty sep s : split sep s <> [].
Proof.
  destruct s as [|c s]; [done|]. cbn. case_decide; [done|].
  by destruct (split sep s).
Qed.

Lemma split_piece_no_sep sep s piece :
  piece ∈ split sep s -> sep ∉ piece.
Proof.
  revert piece. induction s as [|c s IH]; intros piece; cbn.
  - intros ->%list_elem_of_singleton. apply not_elem_of_nil.
  - case_decide as Hc.
    + intros [->|Hin]%elem_of_cons; [apply not_elem_of_nil|by apply IH].
    + destruct (split sep s) as [|p ps].
      * intros ->%list_elem_of_singleton.
        intros ->%list_elem_of_singleton. done.
      * intros [->|Hin]%elem_of_cons.
        -- intros [->|Hsep]%elem_of_cons; [done|].
           by apply (IH p); [left|].
        -- apply IH. by right.
Qed.

Lemma split_piece_elem sep s piece c :
  piece ∈ split sep s -> c ∈ piece -> c ∈ s.
Proof.
  revert piece. induction s as [|c' s IH]; intros piece; cbn.
  - by intros ->%list_elem_of_singleton.
  - case_decide as Hc.
    + intros [->|Hin]%elem_of_cons; [by intros ?%elem_of_nil|].
      intros Hp. right. by eapply IH.
    + destruct (split sep s) as [|p ps] eqn:Hsplit;
        [by destruct (split_nonempty sep s)|].
      intros [->|Hin]%elem_of_cons.
      * intros [->|Hp]%elem_of_cons; [by left|].
        right. apply (IH p); [by left|done].
      * intros Hp. right. apply (IH piece); [by right|done].
Qed.

Lemma split_covers sep s c :
  c ∈ s -> c <> sep -> exists piece, piece ∈ split sep s /\ c ∈ piece.
Proof.
  induction s as [|c' s IH]; [by intros ?%elem_of_nil|]. cbn.
  intros Hin Hne.
  destruct (split sep s) as [|p ps] eqn:Hsplit;
    [by destruct (split_nonempty sep s)|].
  apply elem_of_cons in Hin as [->|Hin].
  - rewrite decide_False by done. exists (c' :: p). split; by left.
  - destruct (IH Hin Hne) as (piece & Hpiece & Hc).
    case_decide.
    + exists piece. split; [by right|done].
    + apply elem_of_cons in Hpiece as [->|Hpiece].
      * exists (c' :: p). split; [by left|by right].
      * exists piece. split; [by right|done].
Qed.

Lemma split_no_sep sep s : sep ∉ s -> split sep s = [s].
Proof.
  induction s as [|c s IH]; [done|]. intros Hnot. cbn.
  rewrite decide_False by (intros ->; apply Hnot; by left).
  rewrite IH; [done|]. intros Hin. apply Hnot. by right.
Qed.

Lemma split_at_sep sep a b :
  sep ∉ a -> split sep (a ++ sep :: b) = a :: split sep b.
Proof.
  induction a as [|c a IH]; intros Hnot.
  - cbn. by rewrite decide_True.
  - cbn. rewrite decide_False by (intros ->; apply Hnot; by left).
    rewrite IH; [done|]. intros Hin. apply Hnot. by right.
Qed.

(** *** [get_sheet_gid] *)

(** X10.  [get_sheet_gid] answers the id, in decimal, of the first sheet
    whose title is the name asked for, and raises [RuntimeError] exactly
    when no sheet has that title.  The answer determines the id. *)
Theorem get_sheet_gid_first_match sheets sheet_name :
  (forall before sheet after,
     sheets = before ++ sheet :: after ->
     Forall (fun s => Hourly.title s <> sheet_name) before ->
     Hourly.title sheet = sheet_name ->
     Hourly.get_sheet_gid sheets sheet_name =
       Done (pretty (Hourly.sheetId sheet))) /\
  (Forall (fun s => Hourly.title s <> sheet_name) sheets <->
   exists msg, Hourly.get_sheet_gid sheets sheet_name
               = Failed (RuntimeError msg)) /\
  (forall gid,
     Hourly.get_sheet_gid sheets sheet_name = Done gid ->
     exists sheet, sheet ∈ sheets /\ Hourly.title sheet = sheet_name /\
                   gid = pretty (Hourly.sheetId sheet) /\
                   forall id : Z, pretty id = gid -> id = Hourly.sheetId sheet).
Proof.
  split_and!.
  - intros before sheet after -> Hbefore Htitle.
    induction Hbefore as [|s before Hs _ IH]; cbn.
    + by rewrite decide_True.
    + by rewrite decide_False.
  - induction sheets as [|s sheets IH]; cbn.
    + split; [eauto|constructor].
    + case_decide as Hs.
      * split; [by intros [? _]%Forall_cons|by intros [? [=]]].
      * rewrite Forall_cons, IH. tauto.
  - induction sheets as [|s sheets IH]; cbn; [done|].
    case_decide as Hs.
    + intros gid [= <-]. exists s. split_and!; [by left|done..|].
      intros id Hid. by apply (inj pretty).
    + intros gid (sheet & Hin & Hrest)%IH. exists sheet.
      split; [by right|done].
Qed.

(** *** [DESTINATIONS] *)

Lemma hourly_destinations_elem env d :
  d ∈ Hourly.DESTINATIONS env <->
  d <> [] /\
  exists piece,
    piece ∈ split comma (default [] (getenv env "DESTINATIONS")) /\
    d = strip piece.
Proof.
  unfold Hourly.DESTINATIONS. rewrite list_elem_of_fmap. split.
  - intros (piece & -> & [Hne Hin]%list_elem_of_filter). eauto.
  - intros (Hne & piece & Hin & ->). exists piece. split; [done|].
    by apply list_elem_of_filter.
Qed.

(** X11.  Every entry of the hourly script's [DESTINATIONS] is non-empty,
    holds no comma, and neither starts nor ends with white space. *)
Theorem hourly_destinations_clean env d :
  d ∈ Hourly.DESTINATIONS env ->
  d <> [] /\ (comma ∉ d) /\
  (forall c, head d = Some c -> isspace c = false) /\
  (forall c, last d = Some c -> isspace c = false).
Proof.
  intros (Hne & piece & Hpiece & ->)%hourly_destinations_elem.
  split_and!; [done| |apply strip_head|apply strip_last].
  intros Hin%strip_elem. by apply (split_piece_no_sep comma _ piece Hpiece).
Qed.

Lemma hourly_destinations_nil env :
  Hourly.DESTINATIONS env = [] <->
  blank (default [] (getenv env "DESTINATIONS")).
Proof.
  set (s := default [] (getenv env "DESTINATIONS")). split.
  - intros Hnil. apply Forall_forall. intros c Hc.
    destruct (decide (c = comma)) as [->|Hne]; [by left|]. right.
    destruct (split_covers comma s c Hc Hne) as (piece & Hpiece & Hin).
    destruct (decide (strip piece = [])) as [Hstrip|Hstrip].
    + apply strip_nil in Hstrip. rewrite Forall_forall in Hstrip. auto.
    + assert (Hd : strip piece ∈ Hourly.DESTINATIONS env)
        by (apply hourly_destinations_elem; eauto).
      rewrite Hnil in Hd. by apply elem_of_nil in Hd.
  - intros Hblank. destruct (Hourly.DESTINATIONS env) as [|d ds] eqn:Hd; [done|].
    assert (Hin : d ∈ Hourly.DESTINATIONS env) by (rewrite Hd; by left).
    apply hourly_destinations_elem in Hin as (Hne & piece & Hpiece & ->).
    destruct Hne. apply strip_nil, Forall_forall. intros c Hc.
    pose proof (split_piece_no_sep comma _ _ Hpiece) as Hnocomma.
    pose proof (split_piece_elem comma _ _ c Hpiece Hc) as Hcs.
    unfold blank in Hblank. rewrite Forall_forall in Hblank.
    destruct (Hblank c Hcs) as [->|Hsp]; [done|done].
Qed.

(** X12.  The hourly script's [DESTINATIONS] is empty exactly when the
    variable is unset or holds nothing but commas and white space. *)
Theorem hourly_destinations_empty env :
  Hourly.DESTINATIONS env = [] <->
  getenv env "DESTINATIONS" = None \/
  exists s, getenv env "DESTINATIONS" = Some s /\ blank s.
Proof.
  rewrite hourly_destinations_nil.
  destruct (getenv env "DESTINATIONS") as [s|]; cbn.
  - split; [eauto|]. by intros [[=]|(s' & [= <-] & Hs)].
  - split; [by left|]. intros _. constructor.
Qed.

(** X13.  The report script's [DESTINATIONS] is never empty, whatever the
    environment; its blank entries are kept.  On a variable that is set, the
    hourly script's list is the report script's list without the empty
    entries. *)
Theorem report_destinations_never_empty env :
  PdfReport.DESTINATIONS env <> [] /\
  (forall s, getenv env "DESTINATIONS" = Some s ->
     Hourly.DESTINATIONS env =
       filter (fun d => d <> []) (PdfReport.DESTINATIONS env)) /\
  (getenv env "DESTINATIONS" = Some [] -> PdfReport.DESTINATIONS env = [[]]).
Proof.
  split_and!.
  - unfold PdfReport.DESTINATIONS. intros Hnil%fmap_nil_inv.
    by apply split_nonempty in Hnil.
  - intros s Hs. unfold Hourly.DESTINATIONS, PdfReport.DESTINATIONS.
    rewrite Hs. change (default [] (Some s)) with s.
    change (default (lit "916303054457") (Some s)) with s.
    generalize (split comma s). intros l.
    induction l as [|p l IH]; [done|]. cbn [fmap list_fmap].
    rewrite !filter_cons. cbn beta.
    destruct (decide (strip p <> [])) as [Hp|Hp]; cbn [fmap list_fmap];
      [rewrite decide_True by done|rewrite decide_False by done];
      by rewrite IH.
  - intros Hs. unfold PdfReport.DESTINATIONS. by rewrite Hs.
Qed.

(** *** The start-up checks *)

Lemma truthy_Some v : truthy v = true <-> exists s, v = Some s /\ s <> [].
Proof.
  destruct v as [[|c s]|]; cbn; split; try done.
  - by intros (s & [= <-] & ?).
  - eauto.
  - by intros (s & [=] & _).
Qed.

Lemma missing_nil required env :
  missing required env = [] <->
  forall v, v ∈ required -> exists s, getenv env v = Some s /\ s <> [].
Proof.
  unfold missing. induction required as [|v required IH].
  - split; [by intros _ ? ?%elem_of_nil|done].
  - rewrite filter_cons. destruct (truthy (getenv env v)) eqn:Hv.
    + rewrite decide_False by done. rewrite IH. split.
      * intros Hall v' [->|Hin]%elem_of_cons; [by apply truthy_Some|auto].
      * intros Hall v' Hin. apply Hall. by right.
    + rewrite decide_True by done. split; [done|]. intros Hall.
      destruct (Hall v) as (s & Hs & Hne); [by left|].
      assert (truthy (getenv env v) = true) by (apply truthy_Some; eauto).
      congruence.
Qed.

(** X14.  The start-up checks of the hourly script pass exactly when each of
    the five required variables is set to a non-empty string and the key
    file exists.  A variable set to the empty string counts as missing, and
    a missing variable is reported before a missing key file. *)
Theorem hourly_startup_checks env key_file_exists :
  (Hourly.startup env key_file_exists = Done () <->
   (forall v, v ∈ Hourly.required ->
      exists s, getenv env v = Some s /\ s <> []) /\
   key_file_exists = true) /\
  (forall v, v ∈ Hourly.required -> getenv env v = Some [] ->
     exists msg, Hourly.startup env key_file_exists
                 = Failed (EnvironmentError msg)) /\
  (forall msg, Hourly.startup env key_file_exists
               = Failed (FileNotFoundError msg) ->
     missing Hourly.required env = [] /\ key_file_exists = false).
Proof.
  unfold Hourly.startup.
  destruct (missing_nil Hourly.required env) as [Hset Hnone].
  destruct (decide (missing Hourly.required env <> [])) as [Hne|Hnil].
  - split_and!.
    + split; [done|]. intros [Hall _]. by apply Hnone in Hall.
    + eauto.
    + done.
  - apply dec_stable in Hnil. split_and!.
    + destruct key_file_exists; cbn; split; try done.
      * intros _. split; [by apply Hset|done].
      * by intros [_ [=]].
    + intros v Hv Hempty.
      destruct (Hset Hnil v Hv) as (s & Hs & Hne). congruence.
    + destruct key_file_exists; cbn; [done|]. by intros msg _.
Qed.

Lemma blank_not_missing env s :
  getenv env "DESTINATIONS" = Some s -> s <> [] ->
  "DESTINATIONS" ∉ missing Hourly.required env.
Proof.
  intros Hs Hne. unfold missing. rewrite list_elem_of_filter. intros [Ht _].
  assert (truthy (getenv env "DESTINATIONS") = true)
    by (apply truthy_Some; eauto).
  congruence.
Qed.

(** *** [range_only] *)

(** X15.  On a range written as a sheet name, "!" and a cell range, with no
    "!" inside either, [range_only] is the cell range; on a string without
    "!" the indexing raises [IndexError]. *)
Theorem range_only_after_bang name cells :
  bang ∉ name ->
  (bang ∉ cells -> Hourly.range_only (name ++ bang :: cells) = Done cells) /\
  Hourly.range_only name = Failed IndexError.
Proof.
  intros Hname. unfold Hourly.range_only. split.
  - intros Hcells. by rewrite split_at_sep, split_no_sep.
  - by rewrite split_no_sep.
Qed.

(** *** The notification loops *)

Lemma send_all_step srv msg msgs tr :
  send_all srv (msg :: msgs) tr =
    match srv tr Hourly.endpoint msg with
    | Status _ =>
        send_all srv msgs (tr ++ [Post Hourly.endpoint msg] ++ [Sleep 5])
    | NoResponse => (tr ++ [Post Hourly.endpoint msg], Failed RequestException)
    end.
Proof.
  cbn [send_all]. unfold mbind, IO_bind, post, sleep.
  destruct (srv tr Hourly.endpoint msg); [|done]. by rewrite <- app_assoc.
Qed.

Lemma send_all_app srv msgs1 msgs2 tr :
  send_all srv (msgs1 ++ msgs2) tr =
    match send_all srv msgs1 tr with
    | (tr', Done _) => send_all srv msgs2 tr'
    | (tr', Failed e) => (tr', Failed e)
    end.
Proof.
  revert tr. induction msgs1 as [|msg msgs1 IH]; intros tr; [done|].
  cbn [app]. rewrite !send_all_step.
  destruct (srv tr Hourly.endpoint msg); [apply IH|done].
Qed.

(** The inner loop is the flat loop over its messages. *)
Lemma send_urls_flat srv cfg dest urls : forall i tr,
  Hourly.send_urls srv cfg dest i urls tr =
    send_all srv
      (imap (fun k url => Hourly.message cfg dest (i + k) url) urls) tr.
Proof.
  induction urls as [|url urls IH]; intros i tr; [done|].
  rewrite imap_cons, send_all_step. cbn [Hourly.send_urls].
  unfold mbind, IO_bind, post, sleep. rewrite Nat.add_0_r.
  destruct (srv tr Hourly.endpoint _); [|done].
  rewrite IH, <- app_assoc. f_equal. apply imap_ext.
  intros k url' _. cbn. f_equal. lia.
Qed.

(** The two nested loops are the flat loop over the schedule. *)
Lemma send_dests_flat srv cfg urls dests : forall tr,
  Hourly.send_dests srv cfg dests urls tr =
    send_all srv
      (dest ← dests; imap (fun k url => Hourly.message cfg dest (S k) url) urls)
      tr.
Proof.
  induction dests as [|dest dests IH]; intros tr; [done|].
  cbn [Hourly.send_dests mbind list_bind]. rewrite send_all_app.
  unfold mbind at 1, IO_bind. rewrite send_urls_flat.
  destruct (send_all srv _ tr) as [tr' [[]|e]]; [apply IH|done].
Qed.

Lemma send_via_aisensy_flat srv cfg urls :
  exec (Hourly.send_via_aisensy srv cfg urls) =
    send_all srv (schedule cfg urls) [].
Proof.
  unfold exec, Hourly.send_via_aisensy, schedule.
  destruct urls as [|url urls]; [|apply send_dests_flat].
  induction (Hourly.destinations cfg) as [|d ds IH]; [done|].
  cbn [mbind list_bind imap app]. exact IH.
Qed.

Lemma posts_app tr1 tr2 : posts (tr1 ++ tr2) = posts tr1 ++ posts tr2.
Proof. unfold posts. apply omap_app. Qed.

Lemma posts_paced msgs : posts (paced msgs) = msgs.
Proof.
  induction msgs as [|msg msgs IH]; [done|].
  unfold paced in *. cbn [mbind list_bind]. rewrite posts_app, IH. done.
Qed.

Lemma length_paced msgs : length (paced msgs) = (2 * length msgs)%nat.
Proof.
  induction msgs as [|msg msgs IH]; [done|].
  unfold paced in *. cbn [mbind list_bind]. rewrite length_app, IH. cbn. lia.
Qed.

(** What any run of the flat loop looks like. *)
Lemma send_all_run srv msgs : forall tr tr' r,
  send_all srv msgs tr = (tr', r) ->
  match r with
  | Done _ => tr' = tr ++ paced msgs
  | Failed e =>
      e = RequestException /\
      exists sent msg,
        sent ++ [msg] `prefix_of` msgs /\
        tr' = tr ++ paced sent ++ [Post Hourly.endpoint msg] /\
        srv (tr ++ paced sent) Hourly.endpoint msg = NoResponse
  end.
Proof.
  induction msgs as [|msg msgs IH]; intros tr tr' r.
  - intros [= <- <-]. by rewrite app_nil_r.
  - rewrite send_all_step.
    destruct (srv tr Hourly.endpoint msg) as [code|] eqn:Hsrv.
    + intros Hrun%IH. destruct r as [[]|e].
      * rewrite Hrun, <- !app_assoc. done.
      * destruct Hrun as (-> & sent & msg' & Hpre & -> & Hfail).
        split; [done|]. exists (msg :: sent), msg'. split_and!.
        -- by apply prefix_cons.
        -- by rewrite <- !app_assoc.
        -- by rewrite <- !app_assoc in Hfail.
    + intros [= <- <-]. split; [done|]. exists [], msg. split_and!.
      * by apply prefix_cons, prefix_nil.
      * done.
      * by rewrite app_nil_r.
Qed.

Lemma schedule_length cfg urls :
  length (schedule cfg urls) =
    (length (Hourly.destinations cfg) * length urls)%nat.
Proof.
  unfold schedule. induction (Hourly.destinations cfg) as [|d ds IH]; [done|].
  cbn [mbind list_bind]. rewrite length_app, length_imap, IH. cbn. lia.
Qed.

(** X16.  With a server that answers every post, [send_via_aisensy] posts
    one message for every destination and every url, destination by
    destination and url by url, the file of the [i]-th url named
    table_[i].jpg, and pauses 5 seconds after each: the number of posts is
    the product of the two lengths, nothing is raised, and the status codes
    that come back change nothing. *)
Theorem send_via_aisensy_all_sent srv cfg urls :
  responsive srv ->
  exec (Hourly.send_via_aisensy srv cfg urls) =
    (paced (schedule cfg urls), Done ()) /\
  posts (paced (schedule cfg urls)) = schedule cfg urls /\
  length (schedule cfg urls) =
    (length (Hourly.destinations cfg) * length urls)%nat /\
  (forall dest k url,
     dest ∈ Hourly.destinations cfg -> urls !! k = Some url ->
     Hourly.message cfg dest (S k) url ∈ schedule cfg urls /\
     media_filename (Hourly.message cfg dest (S k) url)
       = "table_" +:+ pretty (S k) +:+ ".jpg").
Proof.
  intros Hsrv. split_and!.
  - rewrite send_via_aisensy_flat.
    destruct (send_all srv (schedule cfg urls) []) as [tr r] eqn:Hrun.
    apply send_all_run in Hrun. destruct r as [[]|e].
    + by rewrite Hrun.
    + destruct Hrun as (_ & sent & msg & _ & _ & Hfail).
      by destruct (Hsrv _ _ _ Hfail).
  - apply posts_paced.
  - apply schedule_length.
  - intros dest k url Hdest Hurl. split; [|done].
    unfold schedule. apply list_elem_of_bind. exists dest. split; [|done].
    apply list_elem_of_lookup. exists k. by rewrite list_lookup_imap, Hurl.
Qed.

(** X17.  Whatever the server does, the messages [send_via_aisensy] posts
    are the first ones of the schedule, in order.  It raises only when a
    post does: the failed post is then the last event, with no pause and no
    further post after it. *)
Theorem send_via_aisensy_stops_at_failure srv cfg urls tr r :
  exec (Hourly.send_via_aisensy srv cfg urls) = (tr, r) ->
  posts tr `prefix_of` schedule cfg urls /\
  match r with
  | Done _ => tr = paced (schedule cfg urls)
  | Failed e =>
      e = RequestException /\
      exists sent msg,
        tr = paced sent ++ [Post Hourly.endpoint msg] /\
        srv (paced sent) Hourly.endpoint msg = NoResponse
  end.
Proof.
  rewrite send_via_aisensy_flat. intros Hrun%send_all_run.
  destruct r as [[]|e].
  - cbn in Hrun. subst tr. by rewrite posts_paced.
  - destruct Hrun as (-> & sent & msg & Hpre & -> & Hfail). cbn in *.
    split; [|eauto].
    rewrite posts_app, posts_paced. done.
Qed.

Lemma string_length_app (s t : string) :
  String.length (s +:+ t) = (String.length s + String.length t)%nat.
Proof. induction s as [|a s IH]; [done|]. simpl. by f_equal. Qed.

Lemma string_app_inj_r (s1 s2 t : string) : s1 +:+ t = s2 +:+ t -> s1 = s2.
Proof.
  revert s2. induction s1 as [|a s1 IH]; intros [|b s2]; cbn; try done.
  - intros Ht. apply (f_equal String.length) in Ht.
    rewrite !string_length_app in Ht. simpl in Ht. lia.
  - intros Ht. apply (f_equal String.length) in Ht.
    rewrite !string_length_app in Ht. simpl in Ht. lia.
  - intros [= -> Ht]. f_equal. by apply IH.
Qed.

(** X18.  The file name of a message tells the position of its url: two
    messages of [send_via_aisensy] carry the same file name only when their
    urls have the same index. *)
Theorem message_filename_inj cfg dest1 dest2 i1 i2 url1 url2 :
  media_filename (Hourly.message cfg dest1 i1 url1) =
    media_filename (Hourly.message cfg dest2 i2 url2) <->
  i1 = i2.
Proof.
  split; [|by intros ->]. cbn. intros Heq.
  apply (inj (String.app "table_")) in Heq.
  apply string_app_inj_r in Heq. by apply (inj pretty) in Heq.
Qed.

(** X19.  A [DESTINATIONS] variable that is set but holds only commas and
    white space passes the start-up check on the variables, and yet leaves
    the hourly script with no destination: [send_via_aisensy] then posts
    nothing and pauses nowhere, without raising. *)
Theorem blank_destinations_send_nothing env s :
  getenv env "DESTINATIONS" = Some s -> s <> [] -> blank s ->
  ("DESTINATIONS" ∉ missing Hourly.required env) /\
  Hourly.DESTINATIONS env = [] /\
  forall srv cfg urls,
    Hourly.destinations cfg = Hourly.DESTINATIONS env ->
    exec (Hourly.send_via_aisensy srv cfg urls) = ([], Done ()).
Proof.
  intros Hs Hne Hblank.
  assert (Hnil : Hourly.DESTINATIONS env = []).
  { apply hourly_destinations_nil. by rewrite Hs. }
  split_and!; [by eapply blank_not_missing|done|].
  intros srv cfg urls Hcfg. rewrite send_via_aisensy_flat.
  unfold schedule. by rewrite Hcfg, Hnil.
Qed.

(** *** [send_to_aisensy] *)

Lemma send_each_step srv cfg dest dests url tr :
  PdfReport.send_each srv cfg (dest :: dests) url tr =
    match srv tr PdfReport.endpoint (PdfReport.message cfg dest url) with
    | Status _ =>
        PdfReport.send_each srv cfg dests url
          (tr ++ [Post PdfReport.endpoint (PdfReport.message cfg dest url)])
    | NoResponse =>
        (tr ++ [Post PdfReport.endpoint (PdfReport.message cfg dest url)],
         Failed RequestException)
    end.
Proof.
  cbn [PdfReport.send_each]. unfold mbind, IO_bind, post.
  by destruct (srv tr _ _).
Qed.

Lemma send_each_responsive srv cfg url dests : forall tr,
  responsive srv ->
  PdfReport.send_each srv cfg dests url tr =
    (tr ++ ((fun dest => Post PdfReport.endpoint (PdfReport.message cfg dest url))
              <$> dests), Done ()).
Proof.
  induction dests as [|dest dests IH]; intros tr Hsrv.
  - cbn. by rewrite app_nil_r.
  - rewrite send_each_step.
    destruct (srv tr _ _) eqn:Hr; [|by destruct (Hsrv _ _ _ Hr)].
    rewrite IH by done. by rewrite <- app_assoc.
Qed.

Lemma send_each_extends srv cfg url dests : forall tr tr' r,
  PdfReport.send_each srv cfg dests url tr = (tr', r) ->
  exists evs, tr' = tr ++ evs.
Proof.
  induction dests as [|dest dests IH]; intros tr tr' r.
  - intros [= <- _]. exists []. by rewrite app_nil_r.
  - rewrite send_each_step. destruct (srv tr _ _).
    + intros (evs & ->)%IH. rewrite <- app_assoc. eauto.
    + intros [= <- _]. eauto.
Qed.

(** X20.  [send_to_aisensy] of the report script posts at least once,
    whatever the environment holds: its first event is the post to the
    first entry of [DESTINATIONS], which is the empty string when the
    variable is set to the empty string.  With a server that answers every
    post it posts the same url and file name once to every entry, in order,
    without pause. *)
Theorem send_to_aisensy_posts srv cfg env url :
  PdfReport.destinations cfg = PdfReport.DESTINATIONS env ->
  (exists dest dests tr r,
     PdfReport.DESTINATIONS env = dest :: dests /\
     exec (PdfReport.send_to_aisensy srv cfg url) = (tr, r) /\
     head tr = Some (Post PdfReport.endpoint (PdfReport.message cfg dest url))) /\
  (getenv env "DESTINATIONS" = Some [] ->
   exists tr r,
     exec (PdfReport.send_to_aisensy srv cfg url) = (tr, r) /\
     head tr = Some (Post PdfReport.endpoint (PdfReport.message cfg [] url))) /\
  (responsive srv ->
   exec (PdfReport.send_to_aisensy srv cfg url) =
     ((fun dest => Post PdfReport.endpoint (PdfReport.message cfg dest url))
        <$> PdfReport.DESTINATIONS env, Done ())).
Proof.
  intros Hcfg.
  assert (Hfirst : forall dest dests,
            PdfReport.DESTINATIONS env = dest :: dests ->
            exists tr r,
              exec (PdfReport.send_to_aisensy srv cfg url) = (tr, r) /\
              head tr = Some (Post PdfReport.endpoint
                                (PdfReport.message cfg dest url))).
  { intros dest dests Hd. unfold exec, PdfReport.send_to_aisensy.
    rewrite Hcfg, Hd, send_each_step.
    destruct (srv [] _ _); [|eauto].
    destruct (PdfReport.send_each srv cfg dests url _) as [tr r] eqn:Hrun.
    apply send_each_extends in Hrun as (evs & ->). eauto. }
  split_and!.
  - destruct (PdfReport.DESTINATIONS env) as [|dest dests] eqn:Hd.
    + unfold PdfReport.DESTINATIONS in Hd. apply fmap_nil_inv in Hd.
      by apply split_nonempty in Hd.
    + destruct (Hfirst dest dests eq_refl) as (tr & r & Hrun & Hhead).
      by exists dest, dests, tr, r.
  - intros Hs. apply (Hfirst [] []).
    unfold PdfReport.DESTINATIONS. by rewrite Hs.
  - intros Hsrv. unfold exec, PdfReport.send_to_aisensy.
    by rewrite Hcfg, send_each_responsive.
Qed.

(** * The script theorems on sample inputs *)

Lemma get_sheet_gid_first_match_witness :
  Hourly.get_sheet_gid
    [Hourly.mkSheet "VD Report" 0; Hourly.mkSheet "VD Top Batch Day View" 731;
     Hourly.mkSheet "VD Top Batch Day View" 9] "VD Top Batch Day View"
  = Done "731".
Proof.
  refine (proj1 (get_sheet_gid_first_match _ _)
            [Hourly.mkSheet "VD Report" 0]
            (Hourly.mkSheet "VD Top Batch Day View" 731)
            [Hourly.mkSheet "VD Top Batch Day View" 9] _ _ _).
  - reflexivity.
  - repeat constructor. discriminate.
  - reflexivity.
Defined.

Lemma hourly_destinations_clean_witness :
  lit "91" <> [] /\ (comma ∉ lit "91") /\
  (forall c, head (lit "91") = Some c -> isspace c = false) /\
  (forall c, last (lit "91") = Some c -> isspace c = false).
Proof.
  apply (hourly_destinations_clean {["DESTINATIONS" := lit " 91 ,, 92 , "]}).
  vm_compute. left.
Defined.

Lemma blank_destinations_send_nothing_witness :
  ("DESTINATIONS" ∉
     missing Hourly.required {["DESTINATIONS" := lit " , ,"]}) /\
  Hourly.DESTINATIONS {["DESTINATIONS" := lit " , ,"]} = [].
Proof.
  destruct (blank_destinations_send_nothing
              {["DESTINATIONS" := lit " , ,"]} (lit " , ,"))
    as (Hmissing & Hnil & _).
  - reflexivity.
  - discriminate.
  - unfold blank. apply (bool_decide_unpack _). vm_compute. exact I.
  - split; [exact Hmissing|exact Hnil].
Defined.

Lemma range_only_after_bang_witness :
  Hourly.range_only (lit "VD Top Batch Day View!A5:F17") = Done (lit "A5:F17").
Proof.
  refine (proj1 (range_only_after_bang (lit "VD Top Batch Day View")
                   (lit "A5:F17") _) _).
  - vm_compute. intros Hin. by repeat (apply elem_of_cons in Hin as [?|Hin]);
      try apply elem_of_nil in Hin.
  - vm_compute. intros Hin. by repeat (apply elem_of_cons in Hin as [?|Hin]);
      try apply elem_of_nil in Hin.
Defined.

Lemma send_via_aisensy_all_sent_witness :
  exec (Hourly.send_via_aisensy (fun _ _ _ => Status 500)
          (Hourly.mkSettings None None [lit "91"; lit "92"] "1 May")
          ["u1"; "u2"]) =
    (paced (schedule (Hourly.mkSettings None None [lit "91"; lit "92"] "1 May")
              ["u1"; "u2"]), Done ()).
Proof.
  apply (send_via_aisensy_all_sent (fun _ _ _ => Status 500)).
  intros tr e body. discriminate.
Defined.

Lemma send_via_aisensy_stops_at_failure_witness :
  posts [Post Hourly.endpoint
           (Hourly.message (Hourly.mkSettings None None [lit "91"] "1 May")
              (lit "91") 1 "u1")]
    `prefix_of`
    schedule (Hourly.mkSettings None None [lit "91"] "1 May") ["u1"; "u2"].
Proof.
  refine (proj1 (send_via_aisensy_stops_at_failure (fun _ _ _ => NoResponse)
                   (Hourly.mkSettings None None [lit "91"] "1 May")
                   ["u1"; "u2"] _ (Failed RequestException) _)).
  reflexivity.
Defined.

Lemma send_to_aisensy_posts_witness :
  exists tr r,
    exec (PdfReport.send_to_aisensy (fun _ _ _ => Status 200)
            (PdfReport.mkSettings None (lit "c") [[]] "1 May") "u") = (tr, r) /\
    head tr = Some (Post PdfReport.endpoint
                      (PdfReport.message
                         (PdfReport.mkSettings None (lit "c") [[]] "1 May")
                         [] "u")).
Proof.
  refine (proj1 (proj2 (send_to_aisensy_posts (fun _ _ _ => Status 200)
                          (PdfReport.mkSettings None (lit "c") [[]] "1 May")
                          {["DESTINATIONS" := []]} "u" _)) _).
  - reflexivity.
  - reflexivity.
Defined.
